(** * The rolodex of libopenapi: a shallow embedding of [index/rolodex.go]
      and of [Discriminator.FindMappingValue].

    The Go code is translated function by function.  A Go map becomes a
    [gmap]; ranging over a map, whose order Go leaves unspecified, becomes
    a loop over an arbitrary permutation of [map_to_list].  A nil-able
    pointer becomes an [option], an [(value, error)] pair a [Result] or a
    pair of options, and the goroutines of [IndexTheRolodex] a transition
    system driven by an explicit schedule. *)

From Stdlib Require Import ZArith Ascii.
From stdpp Require Import base option list strings gmap fin_maps.

#[local] Set Warnings "-register-all".

Local Open Scope string_scope.
Local Open Scope list_scope.
Local Open Scope Z_scope.

(** ** Go values shared by every part *)

(** [[]byte]. *)
Abbreviation bytes := (list Byte.byte).

(** A non-nil [error] value.  [joinError] is the value [errors.Join] builds
    around the non-nil errors it receives. *)
Inductive error : Type :=
  | errorString (msg : string)
  | joinError (errs : list error).

(** [errors.Join(errs...)].  Every list passed to it by the rolodex holds
    non-nil errors only (each [append] sits under [err != nil]), so the
    nil-filtering of the Go function is the identity here: the result is
    nil exactly when there is nothing to join. *)
Definition errors_Join (errs : list error) : option error :=
  match errs with
  | [] => None
  | _ :: _ => Some (joinError errs)
  end.

(** A Go [(T, error)] result of which exactly one side is meaningful. *)
Inductive Result (A : Type) : Type :=
  | Ok (a : A)
  | Err (e : error).
Arguments Ok {A} a.
Arguments Err {A} e.

(** [time.Time] as an offset from Go's zero instant, [time.Time{}]. *)
Definition Time := Z.
Definition zeroTime : Time := 0.

(** [os.FileMode], a [uint32]. *)
Definition FileMode := Z.

(** The address a [*Rolodex] points to. *)
Definition RolodexPtr := positive.

(** Go does not specify the order in which [range] visits a map:
    [rangeOrder m order] says that [order] is one of the orders a
    [for k, v := range m] may follow. *)
Definition rangeOrder `{Countable K} {V : Type} (m : gmap K V) (order : list (K * V)) : Prop :=
  order ≡ₚ map_to_list m.

(** ** What rolodex.go takes from the rest of the repository

    The types below are declared in files that surround rolodex.go; only
    their names and the way rolodex.go uses them are known. *)
Class IndexTypes : Type := {
  (** [FileExtension] and its constant [UNSUPPORTED]. *)
  FileExtension : Type;
  UNSUPPORTED : FileExtension;
  (** The pointee of [*SpecIndex]. *)
  SpecIndex : Type;
  (** The pointee of [*yaml.Node], the [RootNode] of a parsed document. *)
  RootNode : Type
}.

Section DataModel.
Context `{IndexTypes}.

(** Modelled from the spec: the declaration of [LocalFile] is not among
    the sources.  A file carries content bytes, a detected extension, a
    canonical full path, a modification time and reading errors; the
    fields are the ones rolodex.go reads or writes, prefixed with [lf_]
    because [RemoteFile] has fields of the same names. *)
Record LocalFile : Type := mkLocalFile {
  lf_filename : string;
  lf_name : string;
  lf_extension : FileExtension;
  lf_data : bytes;
  lf_fullPath : string;
  lf_lastModified : Time;
  lf_readingErrors : list error
}.

(** Modelled from the spec: the declaration of [RemoteFile] is not among
    the sources either; the fields are the ones rolodex.go reads, prefixed
    with [rm_]. *)
Record RemoteFile : Type := mkRemoteFile {
  rm_filename : string;
  rm_extension : FileExtension;
  rm_data : bytes;
  rm_fullPath : string;
  rm_lastModified : Time;
  rm_seekingErrors : list error
}.

(** [SpecIndexConfig], declared outside rolodex.go: the three fields
    rolodex.go assigns. *)
Record SpecIndexConfig : Type := mkSpecIndexConfig {
  cfg_Rolodex : option RolodexPtr;
  AvoidBuildIndex : bool;
  SpecAbsolutePath : string
}.

(** [datamodel.SpecInfo]: rolodex.go reads [RootNode] only. *)
Record SpecInfo : Type := mkSpecInfo {
  info_RootNode : RootNode
}.

(** [rolodexFile]. *)
Record rolodexFile : Type := mkRolodexFile {
  location : string;
  rolodex : option RolodexPtr;
  index : option SpecIndex;
  localFile : option LocalFile;
  remoteFile : option RemoteFile
}.
End DataModel.

(** The functions rolodex.go calls and does not define: methods of
    [LocalFile] and [RemoteFile], the document parser, the index
    constructor, and the [path/filepath] and [net/url] functions of the Go
    library. *)
Class IndexOps `{IndexTypes} : Type := {
  LocalFile_Size : LocalFile -> Z;
  LocalFile_Mode : LocalFile -> FileMode;
  RemoteFile_Size : RemoteFile -> Z;
  RemoteFile_Mode : RemoteFile -> FileMode;
  ExtractFileType : string -> FileExtension;
  ExtractSpecInfo : bytes -> Result SpecInfo;
  (** The constructor allocates: the pointer it returns is never nil. *)
  NewSpecIndexWithConfig : RootNode -> SpecIndexConfig -> SpecIndex;
  (** [filepath.Abs], first component (the error is dropped by every caller). *)
  filepath_Abs : string -> string;
  filepath_Join : string -> string -> string;
  filepath_IsAbs : string -> bool;
  filepath_Base : string -> string;
  (** [url.Parse] followed by [.Scheme]: [None] when the parse returns a
      nil URL. *)
  url_Scheme : string -> option string
}.

(** ** The accessors of [rolodexFile] *)
Section Accessors.
Context `{IndexOps}.

Definition Name (rf : rolodexFile) : string :=
  match localFile rf with
  | Some lf => lf_filename lf
  | None =>
    match remoteFile rf with
    | Some rm => rm_filename rm
    | None => ""
    end
  end.

Definition GetIndex (rf : rolodexFile) : option SpecIndex := index rf.

Definition GetContent (rf : rolodexFile) : string :=
  match localFile rf with
  | Some lf => String.string_of_list_byte (lf_data lf)
  | None =>
    match remoteFile rf with
    | Some rm => String.string_of_list_byte (rm_data rm)
    | None => ""
    end
  end.

Definition GetFileExtension (rf : rolodexFile) : FileExtension :=
  match localFile rf with
  | Some lf => lf_extension lf
  | None =>
    match remoteFile rf with
    | Some rm => rm_extension rm
    | None => UNSUPPORTED
    end
  end.

Definition GetFullPath (rf : rolodexFile) : string :=
  match localFile rf with
  | Some lf => lf_fullPath lf
  | None =>
    match remoteFile rf with
    | Some rm => rm_fullPath rm
    | None => ""
    end
  end.

Definition ModTime (rf : rolodexFile) : Time :=
  match localFile rf with
  | Some lf => lf_lastModified lf
  | None =>
    match remoteFile rf with
    | Some rm => rm_lastModified rm
    | None => zeroTime
    end
  end.

Definition Size (rf : rolodexFile) : Z :=
  match localFile rf with
  | Some lf => LocalFile_Size lf
  | None =>
    match remoteFile rf with
    | Some rm => RemoteFile_Size rm
    | None => 0
    end
  end.

Definition IsDir (rf : rolodexFile) : bool := false.

(** [Sys] returns the nil interface value. *)
Definition Sys (rf : rolodexFile) : option unit := None.

Definition Mode (rf : rolodexFile) : FileMode :=
  match localFile rf with
  | Some lf => LocalFile_Mode lf
  | None =>
    match remoteFile rf with
    | Some rm => RemoteFile_Mode rm
    | None => 0
    end
  end.

(** A nil slice and an empty one are both [[]]. *)
Definition GetErrors (rf : rolodexFile) : list error :=
  match localFile rf with
  | Some lf => lf_readingErrors lf
  | None =>
    match remoteFile rf with
    | Some rm => rm_seekingErrors rm
    | None => []
    end
  end.

(** *** [rolodexFile.Index]

    The call may assign [config.Rolodex] through the pointer it is given
    and may assign [rf.index]; both updated objects are returned next to
    the Go result.  [parsed] lists the contents handed to
    [datamodel.ExtractSpecInfo] during the call. *)
Record IndexOutcome : Type := mkIndexOutcome {
  out_file : rolodexFile;
  out_config : SpecIndexConfig;
  out_index : option SpecIndex;
  out_err : option error;
  parsed : list bytes
}.

Definition Index (rf : rolodexFile) (config : SpecIndexConfig) : IndexOutcome :=
  match index rf with
  | Some idx => mkIndexOutcome rf config (Some idx) None []
  | None =>
    let content : bytes := [] in
    let content :=
      match localFile rf with Some lf => lf_data lf | None => content end in
    let content :=
      match remoteFile rf with Some rm => rm_data rm | None => content end in
    match ExtractSpecInfo content with
    | Err err => mkIndexOutcome rf config None (Some err) [content]
    | Ok info =>
      let config :=
        {| cfg_Rolodex := rolodex rf;
           AvoidBuildIndex := AvoidBuildIndex config;
           SpecAbsolutePath := SpecAbsolutePath config |} in
      let idx := NewSpecIndexWithConfig (info_RootNode info) config in
      let rf :=
        {| location := location rf; rolodex := rolodex rf;
           index := Some idx;
           localFile := localFile rf; remoteFile := remoteFile rf |} in
      mkIndexOutcome rf config (Some idx) None [content]
    end
  end.
End Accessors.

(** ** Filesystems and the rolodex *)
Section RolodexModel.
Context `{IndexOps}.

(** What [v.Open(name)] hands back as an [fs.File], seen through the two
    questions [Rolodex.Open] asks of it.  [nativeFile f] is a
    [*localRolodexFile]; [f] is [Some lf] when its field [f] holds a
    [*LocalFile].  [foreignFile content info] is any other file:
    [content] is what [io.ReadAll] returns, [info] what [Stat] returns
    (of the [fs.FileInfo] only [ModTime] is read). *)
Inductive fsFile : Type :=
  | nativeFile (f : option LocalFile)
  | foreignFile (content : Result bytes) (info : Result Time).

(** A value of the interface [RolodexFile] held in [LocalFS.Files]: one
    that implements [CanBeIndexed] (the [rolodexFile] above), or one that
    does not and only answers [GetFullPath]. *)
Inductive FileValue : Type :=
  | indexableFile (rf : rolodexFile)
  | plainFile (fullPath : string).

(** A value of the interface [fs.FS].  [asLocalFS] is the outcome of the
    type assertion of the value to a [*LocalFS]: [Some files] gives the [Files] map of
    the [LocalFS]. *)
Record FS : Type := mkFS {
  fs_Open : string -> Result fsFile;
  asLocalFS : option (gmap string FileValue)
}.

(** [Rolodex].  [indexConfig] is the pointee of the [*SpecIndexConfig]. *)
Record Rolodex : Type := mkRolodex {
  localFS : gmap string FS;
  remoteFS : gmap string FS;
  indexed : bool;
  indexConfig : SpecIndexConfig;
  indexingDuration : Z
}.

(** [NewRolodex]: [self] is the address of the new rolodex; the updated
    pointee of [indexConfig] is the one stored in the result. *)
Definition NewRolodex (self : RolodexPtr) (indexConfig : SpecIndexConfig) : Rolodex :=
  {| localFS := ∅;
     remoteFS := ∅;
     indexed := false;
     indexConfig :=
       {| cfg_Rolodex := Some self;
          AvoidBuildIndex := AvoidBuildIndex indexConfig;
          SpecAbsolutePath := SpecAbsolutePath indexConfig |};
     indexingDuration := 0 |}.

Definition AddLocalFS (baseDir : string) (fileSystem : FS) (r : Rolodex) : Rolodex :=
  let absBaseDir := filepath_Abs baseDir in
  {| localFS := <[absBaseDir := fileSystem]> (localFS r);
     remoteFS := remoteFS r;
     indexed := indexed r;
     indexConfig := indexConfig r;
     indexingDuration := indexingDuration r |}.

Definition AddRemoteFS (baseURL : string) (fileSystem : FS) (r : Rolodex) : Rolodex :=
  {| localFS := localFS r;
     remoteFS := <[baseURL := fileSystem]> (remoteFS r);
     indexed := indexed r;
     indexConfig := indexConfig r;
     indexingDuration := indexingDuration r |}.

(** *** [Rolodex.Open] *)

(** [u != nil && u.Scheme != ""]. *)
Definition isUrl (location : string) : bool :=
  match url_Scheme location with
  | Some scheme => negb (String.eqb scheme "")
  | None => false
  end.

(** How one iteration of the loop over [r.localFS] ends: [Found] is the
    [break] with [localFile] set, [Failed] a [continue] after an append to
    [errorStack], [Passed] an iteration that falls through with neither. *)
Inductive Attempt : Type :=
  | Found (lf : LocalFile)
  | Failed (err : error)
  | Passed.

(** The name the first [v.Open] of an iteration is given. *)
Definition fileLookupOf (k location : string) : string :=
  if filepath_IsAbs location then location
  else filepath_Abs (filepath_Join k location).

(** The two-step lookup: [v.Open(fileLookup)], then on failure
    [v.Open(location)].  The second component lists the names passed to
    [v.Open], in call order. *)
Definition openBoth (v : FS) (fileLookup location : string) : Result fsFile * list string :=
  match fs_Open v fileLookup with
  | Ok f => (Ok f, [fileLookup])
  | Err _ => (fs_Open v location, [fileLookup; location])
  end.

(** What the loop does with the file it obtained. *)
Definition takeFile (fileLookup : string) (f : fsFile) : Attempt :=
  match f with
  | nativeFile (Some lf) => Found lf
  | nativeFile None => Passed
  | foreignFile (Err rErr) _ => Failed rErr
  | foreignFile (Ok _) (Err sErr) => Failed sErr
  | foreignFile (Ok data) (Ok modTime) =>
    if (0 <? length data)%nat then
      Found {| lf_filename := filepath_Base fileLookup;
               lf_name := filepath_Base fileLookup;
               lf_extension := ExtractFileType fileLookup;
               lf_data := data;
               lf_fullPath := fileLookup;
               lf_lastModified := modTime;
               lf_readingErrors := [] |}
    else Passed
  end.

(** The body of the loop for the entry [(k, v)]. *)
Definition openRoot (location k : string) (v : FS) : Attempt * list string :=
  if isUrl location then (Passed, [])
  else
    let fileLookup := fileLookupOf k location in
    match openBoth v fileLookup location with
    | (Err err, names) => (Failed err, names)
    | (Ok f, names) => (takeFile fileLookup f, names)
    end.

(** The state the loop carries: [localFile], [errorStack], and the log
    of every [(root, name)] on which [Open] of a filesystem was called. *)
Record OpenState : Type := mkOpenState {
  os_localFile : option LocalFile;
  errorStack : list error;
  lookups : list (string * string)
}.

Fixpoint openLoop (location : string) (roots : list (string * FS))
    (errs : list error) (log : list (string * string)) : OpenState :=
  match roots with
  | [] => mkOpenState None errs log
  | (k, v) :: rest =>
    let '(a, names) := openRoot location k v in
    let log := log ++ ((λ n, (k, n)) <$> names) in
    match a with
    | Found lf => mkOpenState (Some lf) errs log
    | Failed err => openLoop location rest (errs ++ [err]) log
    | Passed => openLoop location rest errs log
    end
  end.

(** [r.Open(location)] when the range over [r.localFS] follows [order];
    [self] is the receiver pointer.  The pair is the Go result. *)
Definition Open (self : RolodexPtr) (order : list (string * FS)) (location : string)
    : option rolodexFile * option error :=
  let st := openLoop location order [] [] in
  match os_localFile st with
  | Some lf =>
    (Some {| rolodex := Some self;
             location := lf_fullPath lf;
             index := None;
             localFile := Some lf;
             remoteFile := None |},
     errors_Join (errorStack st))
  | None => (None, errors_Join (errorStack st))
  end.

(** The names looked up during that call, each with the root it was
    looked up under. *)
Definition OpenLookups (order : list (string * FS)) (location : string)
    : list (string * string) :=
  lookups (openLoop location order [] []).
End RolodexModel.

(** ** [Rolodex.IndexTheRolodex]

    The call starts one goroutine per registered filesystem
    ([indexRolodexFile]); the goroutine of a [LocalFS] starts one goroutine
    per indexable file ([indexFileFunc]) and waits for them on a
    [sync.WaitGroup].  The three channels are unbuffered, so a send and the
    matching receive of the [select] happen together.  The state below
    holds the program point of every goroutine and the locals of the
    caller; a [Move] is one atomic step, and a schedule is a list of
    moves. *)
Section IndexRun.
Context `{IndexOps}.

(** The program points of [indexFileFunc] for the entry named [name] of
    [lfs.Files]: before [idxFile.Index], blocked on [errChan <- err],
    blocked on [indexChan <- idx], and after [wg.Done()]. *)
Inductive FileTask : Type :=
  | fileReady (name : string) (rf : rolodexFile) (fullPath : string)
  | fileSendErr (name : string) (rf : rolodexFile) (err : error) (idx : option SpecIndex)
  | fileSendIdx (name : string) (rf : rolodexFile) (idx : option SpecIndex)
  | fileDone (name : string) (rf : rolodexFile).

(** The goroutine of one filesystem.  [rootWaiting] is a [LocalFS] between
    the start of its file goroutines and the send on [doneChan];
    [rootExited] has returned.  [remote] tells which of the two maps the
    entry [key] comes from. *)
Inductive RootTask : Type :=
  | rootWaiting (remote : bool) (key : string) (files : list FileTask)
  | rootExited (remote : bool) (key : string) (files : list FileTask).

Record IndexState : Type := mkIndexState {
  indexingCompleted : nat;
  totalToIndex : nat;
  caughtErrors : list error;
  indexBuildQueue : list (option SpecIndex);
  (** the [for indexingCompleted < totalToIndex] loop has been left *)
  loopLeft : bool;
  (** [*r.indexConfig], which every file goroutine copies *)
  sharedConfig : SpecIndexConfig;
  roots : list RootTask;
  (** contents handed to [ExtractSpecInfo], oldest first *)
  parseLog : list bytes
}.

Inductive Move : Type :=
  | runIndex (i j : nat)   (** file [j] of root [i] calls [idxFile.Index] *)
  | recvErr (i j : nat)    (** [case err := <-errChan], sent by that file *)
  | recvIdx (i j : nat)    (** [case idx := <-indexChan], sent by that file *)
  | recvDone (i : nat)     (** [case <-doneChan], sent by root [i] *)
  | leaveLoop.             (** the loop condition is found false *)

Definition spawnFile (entry : string * FileValue) : option FileTask :=
  match entry with
  | (name, indexableFile rf) => Some (fileReady name rf (GetFullPath rf))
  | (_, plainFile _) => None
  end.

(** [go indexRolodexFile(k, v, ...)]: a filesystem that is not a
    [LocalFS] returns at once and sends nothing. *)
Definition spawnRoot (remote : bool) (entry : string * FS) : RootTask :=
  match asLocalFS entry.2 with
  | Some files => rootWaiting remote entry.1 (omap spawnFile (map_to_list files))
  | None => rootExited remote entry.1 []
  end.

Definition withAvoidBuildIndex (r : Rolodex) : Rolodex :=
  {| localFS := localFS r; remoteFS := remoteFS r; indexed := indexed r;
     indexConfig :=
       {| cfg_Rolodex := cfg_Rolodex (indexConfig r);
          AvoidBuildIndex := true;
          SpecAbsolutePath := SpecAbsolutePath (indexConfig r) |};
     indexingDuration := indexingDuration r |}.

(** The state once every [go] statement has run.  Goroutines are listed
    in [map_to_list] order; since they run concurrently the listing
    order only fixes the numbering used by [Move]. *)
Definition startRun (r : Rolodex) : IndexState :=
  {| indexingCompleted := 0;
     totalToIndex := size (localFS r) + size (remoteFS r);
     caughtErrors := [];
     indexBuildQueue := [];
     loopLeft := false;
     sharedConfig := indexConfig r;
     roots := (spawnRoot false <$> map_to_list (localFS r))
              ++ (spawnRoot true <$> map_to_list (remoteFS r));
     parseLog := [] |}.

Definition rootFiles (t : RootTask) : list FileTask :=
  match t with
  | rootWaiting _ _ files => files
  | rootExited _ _ files => files
  end.

Definition setRootFiles (files : list FileTask) (t : RootTask) : RootTask :=
  match t with
  | rootWaiting remote key _ => rootWaiting remote key files
  | rootExited remote key _ => rootExited remote key files
  end.

Definition isFileDone (t : FileTask) : bool :=
  match t with fileDone _ _ => true | _ => false end.

Definition setFile (i j : nat) (t : FileTask) (st : IndexState) : list RootTask :=
  match roots st !! i with
  | Some root => <[i := setRootFiles (<[j := t]> (rootFiles root)) root]> (roots st)
  | None => roots st
  end.

Definition getFile (i j : nat) (st : IndexState) : option FileTask :=
  root ← roots st !! i; rootFiles root !! j.

(** the [select] can fire: the caller is inside the loop *)
Definition selecting (st : IndexState) : bool :=
  negb (loopLeft st) && (indexingCompleted st <? totalToIndex st)%nat.

(** One atomic step; [None] when the move is not enabled in [st]. *)
Definition step (m : Move) (st : IndexState) : option IndexState :=
  match m with
  | runIndex i j =>
    match getFile i j st with
    | Some (fileReady name rf fullPath) =>
      let copiedConfig :=
        {| cfg_Rolodex := cfg_Rolodex (sharedConfig st);
           AvoidBuildIndex := AvoidBuildIndex (sharedConfig st);
           SpecAbsolutePath := fullPath |} in
      let out := Index rf copiedConfig in
      let task :=
        match out_err out with
        | Some err => fileSendErr name (out_file out) err (out_index out)
        | None => fileSendIdx name (out_file out) (out_index out)
        end in
      Some {| indexingCompleted := indexingCompleted st;
              totalToIndex := totalToIndex st;
              caughtErrors := caughtErrors st;
              indexBuildQueue := indexBuildQueue st;
              loopLeft := loopLeft st;
              sharedConfig := sharedConfig st;
              roots := setFile i j task st;
              parseLog := parseLog st ++ parsed out |}
    | _ => None
    end
  | recvErr i j =>
    match getFile i j st with
    | Some (fileSendErr name rf err idx) =>
      if selecting st then
        Some {| indexingCompleted := S (indexingCompleted st);
                totalToIndex := totalToIndex st;
                caughtErrors := caughtErrors st ++ [err];
                indexBuildQueue := indexBuildQueue st;
                loopLeft := loopLeft st;
                sharedConfig := sharedConfig st;
                roots := setFile i j (fileSendIdx name rf idx) st;
                parseLog := parseLog st |}
      else None
    | _ => None
    end
  | recvIdx i j =>
    match getFile i j st with
    | Some (fileSendIdx name rf idx) =>
      if selecting st then
        Some {| indexingCompleted := indexingCompleted st;
                totalToIndex := totalToIndex st;
                caughtErrors := caughtErrors st;
                indexBuildQueue := indexBuildQueue st ++ [idx];
                loopLeft := loopLeft st;
                sharedConfig := sharedConfig st;
                roots := setFile i j (fileDone name rf) st;
                parseLog := parseLog st |}
      else None
    | _ => None
    end
  | recvDone i =>
    match roots st !! i with
    | Some (rootWaiting remote key files) =>
      if selecting st && forallb isFileDone files then
        Some {| indexingCompleted := S (indexingCompleted st);
                totalToIndex := totalToIndex st;
                caughtErrors := caughtErrors st;
                indexBuildQueue := indexBuildQueue st;
                loopLeft := loopLeft st;
                sharedConfig := sharedConfig st;
                roots := <[i := rootExited remote key files]> (roots st);
                parseLog := parseLog st |}
      else None
    | _ => None
    end
  | leaveLoop =>
    if negb (loopLeft st) && negb (indexingCompleted st <? totalToIndex st)%nat then
      Some {| indexingCompleted := indexingCompleted st;
              totalToIndex := totalToIndex st;
              caughtErrors := caughtErrors st;
              indexBuildQueue := indexBuildQueue st;
              loopLeft := true;
              sharedConfig := sharedConfig st;
              roots := roots st;
              parseLog := parseLog st |}
    else None
  end.

Fixpoint runMoves (sched : list Move) (st : IndexState) : option IndexState :=
  match sched with
  | [] => Some st
  | m :: rest =>
    match step m st with
    | Some st' => runMoves rest st'
    | None => None
    end
  end.
End IndexRun.

Section IndexCall.
Context `{IndexOps}.

Definition taskName (t : FileTask) : string :=
  match t with
  | fileReady name _ _ | fileSendErr name _ _ _
  | fileSendIdx name _ _ | fileDone name _ => name
  end.

Definition taskFile (t : FileTask) : rolodexFile :=
  match t with
  | fileReady _ rf _ | fileSendErr _ rf _ _
  | fileSendIdx _ rf _ | fileDone _ rf => rf
  end.

(** The file goroutines work on the very objects [lfs.Files] points to:
    what they assigned is visible in the rolodex afterwards. *)
Definition storeFiles (ts : list FileTask) (files : gmap string FileValue)
    : gmap string FileValue :=
  foldr (λ t m, <[taskName t := indexableFile (taskFile t)]> m) files ts.

Definition storeFS (ts : list FileTask) (v : FS) : FS :=
  {| fs_Open := fs_Open v; asLocalFS := storeFiles ts <$> asLocalFS v |}.

Definition storeRoot (t : RootTask) (r : Rolodex) : Rolodex :=
  match t with
  | rootWaiting remote key ts | rootExited remote key ts =>
    {| localFS := if remote then localFS r else alter (storeFS ts) key (localFS r);
       remoteFS := if remote then alter (storeFS ts) key (remoteFS r) else remoteFS r;
       indexed := indexed r;
       indexConfig := indexConfig r;
       indexingDuration := indexingDuration r |}
  end.

(** [r.indexingDuration = time.Now().Sub(started)], [elapsed] being the
    reading of the clock. *)
Definition finishRun (elapsed : Z) (st : IndexState) (r : Rolodex) : Rolodex :=
  let r := foldr storeRoot r (roots st) in
  {| localFS := localFS r; remoteFS := remoteFS r; indexed := indexed r;
     indexConfig := indexConfig r;
     indexingDuration := elapsed |}.

Record IndexCall : Type := mkIndexCall {
  rolodexAfter : Rolodex;
  returned : option error;
  parseCalls : list bytes
}.

(** [r.IndexTheRolodex()] under the schedule [sched].  [None] means that
    [sched] is not an execution in which the call returns: one of its
    moves is not enabled, or the caller is still inside the loop when it
    ends. *)
Definition IndexTheRolodex (sched : list Move) (elapsed : Z) (r : Rolodex)
    : option IndexCall :=
  if indexed r then Some (mkIndexCall r None [])
  else
    let r := withAvoidBuildIndex r in
    match runMoves sched (startRun r) with
    | Some st =>
      if loopLeft st then
        Some (mkIndexCall (finishRun elapsed st r)
                          (errors_Join (caughtErrors st)) (parseLog st))
      else None
    | None => None
    end.

(** Two calls in a row, the second on the rolodex the first left. *)
Definition callTwice (sched1 : list Move) (elapsed1 : Z)
    (sched2 : list Move) (elapsed2 : Z) (r : Rolodex)
    : option (IndexCall * IndexCall) :=
  first ← IndexTheRolodex sched1 elapsed1 r;
  second ← IndexTheRolodex sched2 elapsed2 (rolodexAfter first);
  Some (first, second).
End IndexCall.

(** Views of a run used to state what it left behind. *)
Section RunViews.
Context `{IndexOps}.

Inductive Phase : Type :=
  | notStarted | blockedOnErrChan | blockedOnIndexChan | finished.

Definition phaseOf (t : FileTask) : Phase :=
  match t with
  | fileReady _ _ _ => notStarted
  | fileSendErr _ _ _ _ => blockedOnErrChan
  | fileSendIdx _ _ _ => blockedOnIndexChan
  | fileDone _ _ => finished
  end.

(** Per root, the program point of each file goroutine. *)
Definition taskPhases (st : IndexState) : list (list (string * Phase)) :=
  (λ root, (λ t, (taskName t, phaseOf t)) <$> rootFiles root) <$> roots st.

Definition hasIndex (f : FileValue) : bool :=
  match f with
  | indexableFile rf => bool_decide (is_Some (index rf))
  | plainFile _ => false
  end.

(** The files of the local roots, each with whether it holds an index. *)
Definition indexedFiles (r : Rolodex) : list (string * bool) :=
  flat_map
    (λ root : string * FS,
       match asLocalFS root.2 with
       | Some files => (λ e : string * FileValue, (e.1, hasIndex e.2)) <$> map_to_list files
       | None => []
       end)
    (map_to_list (localFS r)).

(** The bound the loop of [IndexTheRolodex] keeps. *)
Definition gatherBound (st : IndexState) : Prop :=
  (length (caughtErrors st) ≤ indexingCompleted st)%nat
  ∧ (indexingCompleted st ≤ totalToIndex st)%nat.
End RunViews.

(** ** Every execution of the goroutines

    The moves that can be enabled in a state are finitely many, and every
    move uses up part of a finite budget, so the states an execution can
    reach from a given one can be listed. *)
Section Executions.
Context `{IndexOps}.

Definition fileMoves (i : nat) (files : list FileTask) : list Move :=
  flat_map (λ j, [runIndex i j; recvErr i j; recvIdx i j]) (seq 0 (length files)).

(** Every move that names a goroutine of [st], and [leaveLoop]. *)
Definition candidates (st : IndexState) : list Move :=
  leaveLoop
  :: flat_map (λ i, recvDone i
                    :: fileMoves i (default [] (rootFiles <$> roots st !! i)))
              (seq 0 (length (roots st))).

Definition successors (st : IndexState) : list IndexState :=
  omap (λ m, step m st) (candidates st).

(** The states reached by at most [n] moves. *)
Fixpoint reach (n : nat) (st : IndexState) : list IndexState :=
  st :: match n with
        | O => []
        | S n' => flat_map (reach n') (successors st)
        end.

(** The moves a goroutine has left: three for a file that has not called
    [Index], one for a root that has not sent on [doneChan], one for the
    caller inside the loop. *)
Definition fileWeight (t : FileTask) : nat :=
  match t with
  | fileReady _ _ _ => 3
  | fileSendErr _ _ _ _ => 2
  | fileSendIdx _ _ _ => 1
  | fileDone _ _ => 0
  end.

Definition rootWeight (t : RootTask) : nat :=
  match t with
  | rootWaiting _ _ files => S (sum_list (fileWeight <$> files))
  | rootExited _ _ files => sum_list (fileWeight <$> files)
  end.

Definition weight (st : IndexState) : nat :=
  (if loopLeft st then 0 else 1) + sum_list (rootWeight <$> roots st).

(** The states of the executions of [r.IndexTheRolodex()] in which the
    call has returned, when [r.indexed] is false. *)
Definition returnedStates (r : Rolodex) : list IndexState :=
  let st := startRun (withAvoidBuildIndex r) in
  filter (λ st', loopLeft st' = true) (reach (weight st) st).
End Executions.

(** ** [Discriminator.FindMappingValue] *)

(** [low.KeyReference[string]], [low.ValueReference[string]] and
    [low.NodeReference[string]]: a string next to the address of the
    [*yaml.Node] it was read from. *)
Record KeyReference : Type := mkKeyReference {
  kr_Value : string;
  KeyNode : N
}.

Record ValueReference : Type := mkValueReference {
  vr_Value : string;
  ValueNode : N
}.

Record NodeReference : Type := mkNodeReference {
  nr_Value : string;
  nr_ValueNode : N;
  nr_KeyNode : N
}.

#[global] Instance KeyReference_eq_dec : EqDecision KeyReference.
Proof. solve_decision. Defined.

#[global] Instance KeyReference_countable : Countable KeyReference.
Proof.
  refine (inj_countable' (λ k, (kr_Value k, KeyNode k))
                         (λ p, mkKeyReference p.1 p.2) _).
  by intros [].
Defined.

Record Discriminator : Type := mkDiscriminator {
  PropertyName : NodeReference;
  Mapping : gmap KeyReference ValueReference
}.

(** The loop of [FindMappingValue] over the entries in the order the
    range visits them.  The result is the pointee of the returned pointer,
    [None] for nil. *)
Fixpoint findMapping (order : list (KeyReference * ValueReference)) (key : string)
    : option ValueReference :=
  match order with
  | [] => None
  | (k, v) :: rest =>
    if String.eqb (kr_Value k) key then Some v else findMapping rest key
  end.

Definition FindMappingValue (d : Discriminator)
    (order : list (KeyReference * ValueReference)) (key : string)
    : option ValueReference :=
  findMapping order key.

(** ** Notions used to state the properties *)
Section Statements.
Context `{IndexOps}.

(** Successive calls of [Index] on one file, each seeing what the
    previous call left in the file. *)
Fixpoint IndexSeq (rf : rolodexFile) (configs : list SpecIndexConfig)
    : list IndexOutcome :=
  match configs with
  | [] => []
  | config :: rest =>
    let out := Index rf config in
    out :: IndexSeq (out_file out) rest
  end.

(** The content [Index] reads from a file. *)
Definition contentOf (rf : rolodexFile) : bytes :=
  match remoteFile rf, localFile rf with
  | Some rm, _ => rm_data rm
  | None, Some lf => lf_data lf
  | None, None => []
  end.

(** The [rolodexFile] that [Open] builds around a [LocalFile]. *)
Definition wrapLocal (self : RolodexPtr) (lf : LocalFile) : rolodexFile :=
  {| location := lf_fullPath lf;
     rolodex := Some self;
     index := None;
     localFile := Some lf;
     remoteFile := None |}.

(** The root [(k, v)] yields a file for [location]. *)
Definition yields (location : string) (root : string * FS) : bool :=
  match (openRoot location root.1 root.2).1 with
  | Found _ => true
  | _ => false
  end.

(** The lookup failure recorded for a root, if any. *)
Definition failureAt (location : string) (root : string * FS) : option error :=
  match (openRoot location root.1 root.2).1 with
  | Failed err => Some err
  | _ => None
  end.

Definition failures (location : string) (order : list (string * FS)) : list error :=
  omap (failureAt location) order.

(** The names an iteration logs, each with its root. *)
Definition loggedAt (location : string) (root : string * FS) : list (string * string) :=
  (λ n, (root.1, n)) <$> (openRoot location root.1 root.2).2.

(** The lookups made under one root for a location that is not a URL:
    the name joined against the root (the location itself when it is
    absolute), and the location as supplied only when that failed. *)
Definition attemptsAt (location : string) (root : string * FS)
    : list (string * string) :=
  let fileLookup := fileLookupOf root.1 location in
  match fs_Open root.2 fileLookup with
  | Ok _ => [(root.1, fileLookup)]
  | Err _ => [(root.1, fileLookup); (root.1, location)]
  end.

(** The roots up to and including the first one that yields a file. *)
Fixpoint visited (location : string) (order : list (string * FS))
    : list (string * FS) :=
  match order with
  | [] => []
  | root :: rest =>
    if yields location root then [root] else root :: visited location rest
  end.

(** The file of the first root that yields one. *)
Fixpoint firstFound (location : string) (order : list (string * FS))
    : option LocalFile :=
  match order with
  | [] => None
  | root :: rest =>
    match (openRoot location root.1 root.2).1 with
    | Found lf => Some lf
    | _ => firstFound location rest
    end
  end.

(** The root opens the file, reads zero bytes from it and obtains its
    [Stat]. *)
Definition servesEmpty (location : string) (k : string) (v : FS) : Prop :=
  ∃ modTime,
    (openBoth v (fileLookupOf k location) location).1
    = Ok (foreignFile (Ok []) (Ok modTime)).

(** As [servesEmpty], whatever [Stat] returns. *)
Definition readsEmpty (location : string) (k : string) (v : FS) : Prop :=
  ∃ info,
    (openBoth v (fileLookupOf k location) location).1
    = Ok (foreignFile (Ok []) info).

Definition countErrors (e : option error) : nat :=
  match e with
  | Some (joinError errs) => length errs
  | Some (errorString _) => 1
  | None => 0
  end.
End Statements.

(** A canonical form of a URL, the notion the specification of
    [AddRemoteFS] refers to.
    Whatever else a canonical form does, it lower-cases the scheme
    (RFC 3986, 6.2.2.1; Go's [url.Parse] does as much); [canonicalURL]
    does that and nothing more. *)
Definition lowerAscii (c : ascii) : ascii :=
  let n := nat_of_ascii c in
  if (65 <=? n)%nat && (n <=? 90)%nat then ascii_of_nat (n + 32) else c.

Fixpoint canonicalURL (u : string) : string :=
  match u with
  | EmptyString => EmptyString
  | String c rest =>
    if Ascii.eqb c ":"%char then u
    else String (lowerAscii c) (canonicalURL rest)
  end.

(** ** A concrete setting for the examples

    The collaborators are instantiated with small executable stand-ins.
    On the inputs the examples use (clean absolute Unix roots, relative
    file names without [.] or [..], one URL) they return what the Go
    library returns. *)
Module Sample.

(** [YAML], [JSON] and [UNSUPPORTED] numbered as an [iota] block. *)
Definition extension := nat.
Definition extYAML : extension := 0%nat.
Definition extJSON : extension := 1%nat.
Definition extUNSUPPORTED : extension := 2%nat.

(** An index remembers the document and the path it was built for. *)
Record sampleIndex : Type := mkSampleIndex {
  ix_root : bytes;
  ix_path : string;
  ix_avoidBuild : bool
}.

#[export] Instance types : IndexTypes :=
  {| FileExtension := extension;
     UNSUPPORTED := extUNSUPPORTED;
     SpecIndex := sampleIndex;
     RootNode := bytes |}.

Definition hasSuffix (suffix s : string) : bool :=
  let n := String.length s in
  let k := String.length suffix in
  (k <=? n)%nat && String.eqb (String.substring (n - k) k s) suffix.

Definition extractFileType (name : string) : extension :=
  if hasSuffix ".yaml" name || hasSuffix ".yml" name then extYAML
  else if hasSuffix ".json" name then extJSON
  else extUNSUPPORTED.

(** A document is accepted when it starts with [openapi]. *)
Definition unsupportedSpec : error :=
  errorString "spec type not supported by libopenapi, sorry".

Definition extractSpecInfo (content : bytes) : Result SpecInfo :=
  if String.prefix "openapi" (String.string_of_list_byte content)
  then Ok {| info_RootNode := content |}
  else Err unsupportedSpec.

Definition isAbs (p : string) : bool := String.prefix "/" p.

Definition join (a b : string) : string :=
  if String.eqb a "" then b
  else if String.eqb b "" then a
  else a +:+ "/" +:+ b.

(** The working directory is [/work]. *)
Definition abs (p : string) : string :=
  if isAbs p then p else join "/work" p.

Fixpoint baseFrom (acc s : string) : string :=
  match s with
  | EmptyString => acc
  | String c rest =>
    if Ascii.eqb c "/"%char then baseFrom "" rest
    else baseFrom (acc +:+ String c "") rest
  end.
Definition base (p : string) : string := baseFrom "" p.

Definition scheme (location : string) : option string :=
  if String.prefix "http://" location then Some "http"
  else if String.prefix "https://" location then Some "https"
  else Some "".

#[export] Instance ops : IndexOps :=
  {| LocalFile_Size := λ lf, Z.of_nat (length (lf_data lf));
     LocalFile_Mode := λ _, 0;
     RemoteFile_Size := λ rm, Z.of_nat (length (rm_data rm));
     RemoteFile_Mode := λ _, 0;
     ExtractFileType := extractFileType;
     ExtractSpecInfo := extractSpecInfo;
     NewSpecIndexWithConfig :=
       λ root config,
         mkSampleIndex root (SpecAbsolutePath config) (AvoidBuildIndex config);
     filepath_Abs := abs;
     filepath_Join := join;
     filepath_IsAbs := isAbs;
     filepath_Base := base;
     url_Scheme := scheme |}.

Definition notExist : error := errorString "file does not exist".

(** An in-memory filesystem that is not a [LocalFS]: it serves the
    listed names with their content and fails on every other name. *)
Definition memFS (files : list (string * string)) : FS :=
  {| fs_Open := λ name,
       match list_find (λ e, e.1 = name) files with
       | Some (_, (_, text)) =>
         Ok (foreignFile (Ok (String.list_byte_of_string text)) (Ok 1700000000))
       | None => Err notExist
       end;
     asLocalFS := None |}.

(** A file of a [LocalFS] with the given content. *)
Definition fileWith (path text : string) : rolodexFile :=
  {| location := path;
     rolodex := Some 1%positive;
     index := None;
     localFile :=
       Some {| lf_filename := base path; lf_name := base path;
               lf_extension := extractFileType path;
               lf_data := String.list_byte_of_string text;
               lf_fullPath := path;
               lf_lastModified := 1700000000;
               lf_readingErrors := [] |};
     remoteFile := None |}.

(** A [LocalFS] holding the given files; its [Open] hands out the
    native handle of a listed file. *)
Definition localFSOf (files : list (string * string)) : FS :=
  {| fs_Open := λ name,
       match list_find (λ e, e.1 = name) files with
       | Some (_, (path, text)) => Ok (nativeFile (localFile (fileWith path text)))
       | None => Err notExist
       end;
     asLocalFS :=
       Some (list_to_map ((λ e, (e.1, indexableFile (fileWith e.1 e.2))) <$> files)) |}.

Definition emptyRolodex : Rolodex :=
  NewRolodex 1%positive
    {| cfg_Rolodex := None; AvoidBuildIndex := false; SpecAbsolutePath := "" |}.

Definition someConfig : SpecIndexConfig :=
  {| cfg_Rolodex := None; AvoidBuildIndex := true;
     SpecAbsolutePath := "/specs/good.yaml" |}.

Definition catKey : KeyReference := mkKeyReference "cat" 11.
Definition dogKey : KeyReference := mkKeyReference "dog" 13.
Definition catValue : ValueReference := mkValueReference "#/components/schemas/Cat" 12.
Definition dogValue : ValueReference := mkValueReference "#/components/schemas/Dog" 14.

Definition petDiscriminator : Discriminator :=
  {| PropertyName := mkNodeReference "petType" 10 9;
     Mapping := <[catKey := catValue]> (<[dogKey := dogValue]> ∅) |}.

Definition validDoc : string := "openapi: 3.1.0".
Definition invalidDoc : string := "not a spec".

(** Rolodexes for [IndexTheRolodex]: one [LocalFS] root. *)
Definition oneBadFile : Rolodex :=
  AddLocalFS "/specs" (localFSOf [("/specs/bad.yaml", invalidDoc)]) emptyRolodex.

Definition twoBadFiles : Rolodex :=
  AddLocalFS "/specs"
    (localFSOf [("/specs/a.yaml", invalidDoc); ("/specs/b.yaml", invalidDoc)])
    emptyRolodex.

Definition goodAndBad : Rolodex :=
  AddLocalFS "/specs"
    (localFSOf [("/specs/bad.yaml", invalidDoc); ("/specs/good.yaml", validDoc)])
    emptyRolodex.

(** Rolodexes for [Open]. *)
Definition fsA : FS := memFS [("/a/pet.yaml", "openapi: a")].
Definition fsB : FS := memFS [("/b/pet.yaml", "openapi: b")].

(** The [LocalFile] that [Open] builds for [pet.yaml] found under [/b]. *)
Definition petOfB : LocalFile :=
  {| lf_filename := "pet.yaml"; lf_name := "pet.yaml";
     lf_extension := extYAML;
     lf_data := String.list_byte_of_string "openapi: b";
     lf_fullPath := "/b/pet.yaml";
     lf_lastModified := 1700000000;
     lf_readingErrors := [] |}.

(** [/a] registered first, [/b] second; both serve [pet.yaml]. *)
Definition bothServe : Rolodex :=
  AddLocalFS "/b" fsB (AddLocalFS "/a" fsA emptyRolodex).

(** [/a] registered first and empty, [/b] second. *)
Definition onlySecond : Rolodex :=
  AddLocalFS "/b" fsB (AddLocalFS "/a" (memFS []) emptyRolodex).

(** [/specs] serves [empty.yaml] under its relative name, with no
    content. *)
Definition emptyFileRoot : Rolodex :=
  AddLocalFS "/specs" (memFS [("empty.yaml", "")]) emptyRolodex.

(** One root that serves a file under the joined name and another file
    under the bare name. *)
Definition joinedAndSupplied : Rolodex :=
  AddLocalFS "/specs"
    (memFS [("/specs/pet.yaml", "openapi: joined"); ("pet.yaml", "openapi: supplied")])
    emptyRolodex.

(** A filesystem whose files open and read as empty and whose [Stat]
    fails. *)
Definition statFailed : error := errorString "stat failed".
Definition statFailsFS : FS :=
  {| fs_Open := λ _, Ok (foreignFile (Ok []) (Err statFailed));
     asLocalFS := None |}.
Definition statFailsRoot : Rolodex := AddLocalFS "/specs" statFailsFS emptyRolodex.
End Sample.

(** ** Further concrete values *)
Module Cases.
Import Sample.

(** A file that has both a local and a remote side. *)
Definition localSide : LocalFile :=
  {| lf_filename := "pet.yaml"; lf_name := "pet.yaml";
     lf_extension := extYAML;
     lf_data := String.list_byte_of_string invalidDoc;
     lf_fullPath := "/specs/pet.yaml";
     lf_lastModified := 1700000000;
     lf_readingErrors := [] |}.

Definition remoteSide : RemoteFile :=
  {| rm_filename := "pet.yaml";
     rm_extension := extYAML;
     rm_data := String.list_byte_of_string validDoc;
     rm_fullPath := "https://example.com/pet.yaml";
     rm_lastModified := 1700000001;
     rm_seekingErrors := [] |}.

Definition twoSided : rolodexFile :=
  {| location := "/specs/pet.yaml";
     rolodex := Some 1%positive;
     index := None;
     localFile := Some localSide;
     remoteFile := Some remoteSide |}.

(** One [LocalFS] root with two valid files. *)
Definition twoGoodFiles : Rolodex :=
  AddLocalFS "/specs"
    (localFSOf [("/specs/a.yaml", validDoc); ("/specs/b.yaml", validDoc)])
    emptyRolodex.

(** One [LocalFS] root and one root that is not a [LocalFS]. *)
Definition mixedRoots : Rolodex :=
  AddLocalFS "/mem" (memFS [("pet.yaml", validDoc)]) oneBadFile.
End Cases.

(** ** Counting roots, files and goroutines *)
Section RunCounts.
Context `{IndexOps}.

Definition isLocalFS (v : FS) : bool :=
  match asLocalFS v with Some _ => true | None => false end.

(** Every registered filesystem, local roots first. *)
Definition allRoots (r : Rolodex) : list (string * FS) :=
  map_to_list (localFS r) ++ map_to_list (remoteFS r).

(** How many registered filesystems are not a [LocalFS]. *)
Definition foreignRoots (r : Rolodex) : nat :=
  sum_list ((λ e : string * FS, if isLocalFS e.2 then 0 else 1)%nat <$> allRoots r).

(** The entries of [Files] of a filesystem; none when it is not a
    [LocalFS]. *)
Definition filesOf (v : FS) : list (string * FileValue) :=
  match asLocalFS v with
  | Some files => map_to_list files
  | None => []
  end.

Definition countFiles (g : FileValue → nat) (r : Rolodex) : nat :=
  sum_list ((λ e : string * FS, sum_list ((λ f, g f.2) <$> filesOf e.2)) <$> allRoots r).

(** How many files implement [CanBeIndexed]. *)
Definition indexableCount (r : Rolodex) : nat :=
  countFiles (λ f, match f with indexableFile _ => 1 | plainFile _ => 0 end)%nat r.


Definition sumTasks (g : FileTask → nat) (roots : list RootTask) : nat :=
  sum_list ((λ root, sum_list (g <$> rootFiles root)) <$> roots).

Definition isRootWaiting (t : RootTask) : bool :=
  match t with rootWaiting _ _ _ => true | rootExited _ _ _ => false end.

Definition waitingRoots (roots : list RootTask) : nat :=
  sum_list ((λ t, if isRootWaiting t then 1 else 0)%nat <$> roots).


(** A file goroutine past [Index] whose file holds an index. *)
Definition taskIndexed (t : FileTask) : Prop :=
  match t with
  | fileSendIdx _ rf _ | fileDone _ rf => is_Some (index rf)
  | _ => True
  end.

(** Every root goroutine has returned and every file goroutine has
    finished, its file holding an index. *)
Definition allFinished (st : IndexState) : Prop :=
  Forall (λ root, isRootWaiting root = false
                  ∧ Forall (λ t, isFileDone t = true ∧ is_Some (index (taskFile t)))
                           (rootFiles root))
         (roots st).
(** Each counted completion is an error received or a root that has
    sent on [doneChan]. *)
Definition completionsBalance (c : nat) (st : IndexState) : Prop :=
  (indexingCompleted st + waitingRoots (roots st)
   = length (caughtErrors st) + c)%nat.

(** Once the loop is left, every filesystem has been counted, and no
    receive happens any more. *)
Definition leftWhenCounted (st : IndexState) : Prop :=
  loopLeft st = true → (totalToIndex st ≤ indexingCompleted st)%nat.

(** A root goroutine that has returned leaves only finished file
    goroutines behind. *)
Definition settledRoots (st : IndexState) : Prop :=
  Forall (λ root, isRootWaiting root = false →
                  forallb isFileDone (rootFiles root) = true)
         (roots st).

(** As long as no error was caught, every file goroutine past [Index]
    works on a file that holds an index. *)
Definition indexedWhenClean (st : IndexState) : Prop :=
  caughtErrors st = [] →
  Forall (λ root, Forall taskIndexed (rootFiles root)) (roots st).


End RunCounts.

(** ** The resolver: [isInfiniteCircularDependency]

    [Reference] is declared outside the sources at hand; the fields are
    the ones the resolver reads or writes.  [RequiredRefProperties] is a
    Go map whose keys are definitions; only the keys are read. *)
Record Reference : Type := mkReference {
  ref_Definition : string;
  ref_FullDefinition : string;
  ref_Name : string;
  RequiredRefProperties : gmap string (list string);
  ParentNodeSchemaType : string;
  Resolved : bool;
  Seen : bool;
  Circular : bool
}.

(** How a call of [isInfiniteCircularDependency] ends: it returns its
    pair (with the number of [range] statements started so far), it
    dereferences a nil [*Reference], or the recursion is cut off. *)
Inductive IcdResult : Type :=
  | icdReturn (found : bool) (visitedDefinitions : gmap string bool) (ranges : nat)
  | icdPanic
  | icdOutOfFuel.

Section InfiniteCircularDependency.
(** [resolver.specIndex.SearchIndexForReference], first component: the
    reference found for a definition, or nil. *)
Context (SearchIndexForReference : string → option Reference).
(** The order the [n]-th [range] statement of the run follows over a map
    whose keys, in some fixed listing, are given. *)
Context (rangeOrderOf : nat → list string → list string).

(** The body of the [for] loop over the keys still to visit; [recurse] is
    the recursive call. *)
Definition icdLoop
    (recurse : option Reference → gmap string bool → option Reference → nat → IcdResult)
    (ref : Reference) (initialRef : option Reference)
    : list string → gmap string bool → nat → IcdResult :=
  fix loop (keys : list string) (visitedDefinitions : gmap string bool) (ranges : nat) :=
    match keys with
    | [] => icdReturn false visitedDefinitions ranges
    | refDefinition :: rest =>
      match SearchIndexForReference refDefinition with
      | None => icdPanic
      | Some r =>
        if match initialRef with
           | Some initial => String.eqb (ref_Definition initial) (ref_Definition r)
           | None => false
           end
        then icdReturn true visitedDefinitions ranges
        else
          let visitedDefinitions := <[ref_Definition r := true]> visitedDefinitions in
          let ir := match initialRef with Some initial => initial | None => ref end in
          match recurse (Some r) visitedDefinitions (Some ir) ranges with
          | icdReturn true visitedDefinitions ranges =>
            icdReturn true visitedDefinitions ranges
          | icdReturn false visitedDefinitions ranges =>
            loop rest visitedDefinitions ranges
          | icdPanic => icdPanic
          | icdOutOfFuel => icdOutOfFuel
          end
      end
    end.

(** [resolver.isInfiniteCircularDependency(ref, visitedDefinitions,
    initialRef)], the recursion cut off at depth [fuel]. *)
Fixpoint isInfiniteCircularDependency (fuel : nat) (ref : option Reference)
    (visitedDefinitions : gmap string bool) (initialRef : option Reference)
    (ranges : nat) : IcdResult :=
  match fuel with
  | O => icdOutOfFuel
  | S fuel' =>
    match ref with
    | None => icdReturn false visitedDefinitions ranges
    | Some ref' =>
      icdLoop (isInfiniteCircularDependency fuel') ref' initialRef
        (rangeOrderOf ranges (map_to_list (RequiredRefProperties ref')).*1)
        visitedDefinitions (S ranges)
    end
  end.

(** [r] is a required property of [ref]: one of the keys of
    [ref.RequiredRefProperties] is found in the index as [r]. *)
Definition requires (ref r : Reference) : Prop :=
  ∃ refDefinition,
    is_Some (RequiredRefProperties ref !! refDefinition)
    ∧ SearchIndexForReference refDefinition = Some r.

(** From [ref], one or more required properties lead to a reference
    whose definition is [target]. *)
Inductive reaches (target : string) : Reference → Prop :=
  | reaches_child (ref r : Reference) :
      requires ref r → ref_Definition r = target → reaches target ref
  | reaches_later (ref r : Reference) :
      requires ref r → reaches target r → reaches target ref.

(** Every chain of required properties from [ref] ends, or meets
    [target], within [n] steps, and every key on the way is found in the
    index. *)
Fixpoint settlesWithin (target : string) (n : nat) (ref : Reference) : Prop :=
  ∀ refDefinition,
    is_Some (RequiredRefProperties ref !! refDefinition) →
    ∃ r, SearchIndexForReference refDefinition = Some r
         ∧ (ref_Definition r = target
            ∨ match n with
              | O => False
              | S n' => settlesWithin target n' r
              end).

(** The boolean a result carries, if any. *)
Definition icdFound (res : IcdResult) : option bool :=
  match res with
  | icdReturn found _ _ => Some found
  | _ => None
  end.
End InfiniteCircularDependency.

(** The test [initialRef != nil && initialRef.Definition == r.Definition]
    and the reference [ir] passed down, as the loop computes them. *)
Definition hitsInitial (initialRef : option Reference) (r : Reference) : bool :=
  match initialRef with
  | Some initial => String.eqb (ref_Definition initial) (ref_Definition r)
  | None => false
  end.

Definition initialOf (ref : Reference) (initialRef : option Reference) : Reference :=
  match initialRef with Some initial => initial | None => ref end.

(** Two results that differ at most in the visited definitions. *)
Definition sameButVisited (res1 res2 : IcdResult) : Prop :=
  match res1, res2 with
  | icdReturn found1 _ ranges1, icdReturn found2 _ ranges2 =>
    found1 = found2 ∧ ranges1 = ranges2
  | icdPanic, icdPanic => True
  | icdOutOfFuel, icdOutOfFuel => True
  | _, _ => False
  end.

(** A small index: [A] requires [B], [B] requires [C] and [C] requires
    [B] again; [M] and [N] require each other; [P] requires [Q], which
    requires nothing. *)
Module Graph.
Definition schema (name : string) (required : list string) : Reference :=
  {| ref_Definition := "#/components/schemas/" +:+ name;
     ref_FullDefinition := "/specs/api.yaml#/components/schemas/" +:+ name;
     ref_Name := name;
     RequiredRefProperties :=
       list_to_map ((λ d, ("#/components/schemas/" +:+ d, [d])) <$> required);
     ParentNodeSchemaType := "";
     Resolved := false; Seen := false; Circular := false |}.

Definition refA : Reference := schema "A" ["B"].
Definition refB : Reference := schema "B" ["C"].
Definition refC : Reference := schema "C" ["B"].
Definition refM : Reference := schema "M" ["N"].
Definition refN : Reference := schema "N" ["M"].
Definition refP : Reference := schema "P" ["Q"].
Definition refQ : Reference := schema "Q" [].

Definition search (definition : string) : option Reference :=
  snd <$> list_find (λ r, ref_Definition r = definition)
            [refA; refB; refC; refM; refN; refP; refQ].

(** Every range follows the listing of the keys as it is. *)
Definition inListingOrder (n : nat) (keys : list string) : list string := keys.
End Graph.

(** ** The resolver: its results and their accessors

    [CircularReferenceResult] is declared outside the sources at hand;
    the fields are the ones the resolver sets. *)
Record CircularReferenceResult : Type := mkCircularReferenceResult {
  Journey : list Reference;
  Start : Reference;
  LoopIndex : Z;
  LoopPoint : Reference;
  PolymorphicType : string;
  IsPolymorphicResult : bool;
  IsArrayResult : bool;
  IsInfiniteLoop : bool
}.

(** [ResolvingError]; [Node] is the address of the [*yaml.Node]. *)
Record ResolvingError : Type := mkResolvingError {
  ErrorRef : error;
  Node : N;
  Path : string;
  CircularReference : option CircularReferenceResult
}.

(** [Resolver], without its two pointers into the index. *)
Record Resolver : Type := mkResolver {
  resolvingErrors : list ResolvingError;
  circularReferences : list CircularReferenceResult;
  ignoredPolyReferences : list CircularReferenceResult;
  ignoredArrayReferences : list CircularReferenceResult;
  referencesVisited : Z;
  indexesVisited : Z;
  journeysTaken : Z;
  relativesSeen : Z;
  IgnorePoly : bool;
  IgnoreArray : bool
}.

Definition GetIgnoredCircularPolyReferences (resolver : Resolver) :=
  ignoredPolyReferences resolver.

Definition GetIgnoredCircularArrayReferences (resolver : Resolver) :=
  ignoredArrayReferences resolver.

Definition GetResolvingErrors (resolver : Resolver) := resolvingErrors resolver.

Definition GetCircularErrors (resolver : Resolver) := circularReferences resolver.

(** The loop of [GetPolymorphicCircularErrors] over the entries still to
    visit, [res] being the slice built so far. *)
Fixpoint polymorphicLoop (refs res : list CircularReferenceResult)
    : list CircularReferenceResult :=
  match refs with
  | [] => res
  | circRef :: rest =>
    if negb (IsInfiniteLoop circRef) then polymorphicLoop rest res
    else if negb (IsPolymorphicResult circRef) then polymorphicLoop rest res
    else polymorphicLoop rest (res ++ [circRef])
  end.

Definition GetPolymorphicCircularErrors (resolver : Resolver)
    : list CircularReferenceResult :=
  polymorphicLoop (circularReferences resolver) [].

Fixpoint nonPolymorphicLoop (refs res : list CircularReferenceResult)
    : list CircularReferenceResult :=
  match refs with
  | [] => res
  | circRef :: rest =>
    if negb (IsInfiniteLoop circRef) then nonPolymorphicLoop rest res
    else if negb (IsPolymorphicResult circRef)
         then nonPolymorphicLoop rest (res ++ [circRef])
         else nonPolymorphicLoop rest res
  end.

Definition GetNonPolymorphicCircularErrors (resolver : Resolver)
    : list CircularReferenceResult :=
  nonPolymorphicLoop (circularReferences resolver) [].

Definition IgnorePolymorphicCircularReferences (resolver : Resolver) : Resolver :=
  {| resolvingErrors := resolvingErrors resolver;
     circularReferences := circularReferences resolver;
     ignoredPolyReferences := ignoredPolyReferences resolver;
     ignoredArrayReferences := ignoredArrayReferences resolver;
     referencesVisited := referencesVisited resolver;
     indexesVisited := indexesVisited resolver;
     journeysTaken := journeysTaken resolver;
     relativesSeen := relativesSeen resolver;
     IgnorePoly := true;
     IgnoreArray := IgnoreArray resolver |}.

Definition IgnoreArrayCircularReferences (resolver : Resolver) : Resolver :=
  {| resolvingErrors := resolvingErrors resolver;
     circularReferences := circularReferences resolver;
     ignoredPolyReferences := ignoredPolyReferences resolver;
     ignoredArrayReferences := ignoredArrayReferences resolver;
     referencesVisited := referencesVisited resolver;
     indexesVisited := indexesVisited resolver;
     journeysTaken := journeysTaken resolver;
     relativesSeen := relativesSeen resolver;
     IgnorePoly := IgnorePoly resolver;
     IgnoreArray := true |}.

(** ** What a visit writes

    [visitIndex], [visitIndexWithoutDamagingIt], [VisitReference] and
    [extractRelatives] walk yaml nodes and the index, which lie outside
    this model.  The resolver itself they write at the statements listed
    here and nowhere else; a visit that returns is taken as the sequence
    of these writes, in the order in which it performs them.

    - [indexEntered]: [res.indexesVisited++];
    - [journeyStarted]: [res.journeysTaken++];
    - [referenceEntered]: [resolver.referencesVisited++];
    - [relativesFound]: [resolver.relativesSeen += len(found)];
    - [missingReference]: [extractRelatives] could not locate the
      reference [value] of node [n]; [path] is what
      [ConvertComponentIdIntoFriendlyPathSearch] gives for it;
    - [loopOnJourney]: [VisitReference] met the relative [r] on the
      journey at index [i], the reference [foundDup] found for it was not
      yet marked circular, and [isInfiniteCircularDependency] returned
      [isInfiniteLoop] for it;
    - [loopOnPolymorph]: [extractRelatives] met [mappedRefs] on the
      journey below the [oneOf], [anyOf] or [allOf] named by
      [polymorphicType]. *)
Inductive VisitWrite : Type :=
  | indexEntered
  | journeyStarted
  | referenceEntered
  | relativesFound (found : Z)
  | missingReference (value : string) (n : N) (path : string)
  | loopOnJourney (journey : list Reference) (foundDup r : Reference) (i : Z)
                  (isInfiniteLoop : bool)
  | loopOnPolymorph (journey : list Reference) (mappedRefs : Reference) (i : Z)
                    (polymorphicType : string).

Definition appendResolvingError (err : ResolvingError) (resolver : Resolver) : Resolver :=
  {| resolvingErrors := resolvingErrors resolver ++ [err];
     circularReferences := circularReferences resolver;
     ignoredPolyReferences := ignoredPolyReferences resolver;
     ignoredArrayReferences := ignoredArrayReferences resolver;
     referencesVisited := referencesVisited resolver;
     indexesVisited := indexesVisited resolver;
     journeysTaken := journeysTaken resolver;
     relativesSeen := relativesSeen resolver;
     IgnorePoly := IgnorePoly resolver;
     IgnoreArray := IgnoreArray resolver |}.

Definition appendCircularReference (circRef : CircularReferenceResult)
    (resolver : Resolver) : Resolver :=
  {| resolvingErrors := resolvingErrors resolver;
     circularReferences := circularReferences resolver ++ [circRef];
     ignoredPolyReferences := ignoredPolyReferences resolver;
     ignoredArrayReferences := ignoredArrayReferences resolver;
     referencesVisited := referencesVisited resolver;
     indexesVisited := indexesVisited resolver;
     journeysTaken := journeysTaken resolver;
     relativesSeen := relativesSeen resolver;
     IgnorePoly := IgnorePoly resolver;
     IgnoreArray := IgnoreArray resolver |}.

Definition appendIgnoredPoly (circRef : CircularReferenceResult)
    (resolver : Resolver) : Resolver :=
  {| resolvingErrors := resolvingErrors resolver;
     circularReferences := circularReferences resolver;
     ignoredPolyReferences := ignoredPolyReferences resolver ++ [circRef];
     ignoredArrayReferences := ignoredArrayReferences resolver;
     referencesVisited := referencesVisited resolver;
     indexesVisited := indexesVisited resolver;
     journeysTaken := journeysTaken resolver;
     relativesSeen := relativesSeen resolver;
     IgnorePoly := IgnorePoly resolver;
     IgnoreArray := IgnoreArray resolver |}.

Definition appendIgnoredArray (circRef : CircularReferenceResult)
    (resolver : Resolver) : Resolver :=
  {| resolvingErrors := resolvingErrors resolver;
     circularReferences := circularReferences resolver;
     ignoredPolyReferences := ignoredPolyReferences resolver;
     ignoredArrayReferences := ignoredArrayReferences resolver ++ [circRef];
     referencesVisited := referencesVisited resolver;
     indexesVisited := indexesVisited resolver;
     journeysTaken := journeysTaken resolver;
     relativesSeen := relativesSeen resolver;
     IgnorePoly := IgnorePoly resolver;
     IgnoreArray := IgnoreArray resolver |}.

(** The four counters, each moved by the given amount. *)
Definition count (references indexes journeys relatives : Z) (resolver : Resolver)
    : Resolver :=
  {| resolvingErrors := resolvingErrors resolver;
     circularReferences := circularReferences resolver;
     ignoredPolyReferences := ignoredPolyReferences resolver;
     ignoredArrayReferences := ignoredArrayReferences resolver;
     referencesVisited := referencesVisited resolver + references;
     indexesVisited := indexesVisited resolver + indexes;
     journeysTaken := journeysTaken resolver + journeys;
     relativesSeen := relativesSeen resolver + relatives;
     IgnorePoly := IgnorePoly resolver;
     IgnoreArray := IgnoreArray resolver |}.

(** The [CircularReferenceResult] literal of [VisitReference]. *)
Definition journeyLoop (journey : list Reference) (foundDup r : Reference) (i : Z)
    (isInfiniteLoop : bool) : CircularReferenceResult :=
  {| Journey := journey ++ [foundDup];
     Start := foundDup;
     LoopIndex := i;
     LoopPoint := foundDup;
     PolymorphicType := "";
     IsPolymorphicResult := false;
     IsArrayResult := String.eqb (ParentNodeSchemaType r) "array";
     IsInfiniteLoop := isInfiniteLoop |}.

(** The [CircularReferenceResult] literal of [extractRelatives], the same
    at both places. *)
Definition polymorphLoop (journey : list Reference) (mappedRefs : Reference) (i : Z)
    (polymorphicType : string) : CircularReferenceResult :=
  {| Journey := journey ++ [mappedRefs];
     Start := mappedRefs;
     LoopIndex := i;
     LoopPoint := mappedRefs;
     PolymorphicType := polymorphicType;
     IsPolymorphicResult := true;
     IsArrayResult := false;
     IsInfiniteLoop := false |}.

Definition write (w : VisitWrite) (resolver : Resolver) : Resolver :=
  match w with
  | indexEntered => count 0 1 0 0 resolver
  | journeyStarted => count 0 0 1 0 resolver
  | referenceEntered => count 1 0 0 0 resolver
  | relativesFound found => count 0 0 0 found resolver
  | missingReference value n path =>
    appendResolvingError
      {| ErrorRef := errorString ("cannot resolve reference `" +:+ value
                                  +:+ "`, it's missing");
         Node := n;
         Path := path;
         CircularReference := None |}
      resolver
  | loopOnJourney journey foundDup r i isInfiniteLoop =>
    let circRef := journeyLoop journey foundDup r i isInfiniteLoop in
    if IgnoreArray resolver && IsArrayResult circRef
    then appendIgnoredArray circRef resolver
    else appendCircularReference circRef resolver
  | loopOnPolymorph journey mappedRefs i polymorphicType =>
    let circRef := polymorphLoop journey mappedRefs i polymorphicType in
    if IgnorePoly resolver
    then appendIgnoredPoly circRef resolver
    else appendCircularReference circRef resolver
  end.

Definition visit (writes : list VisitWrite) (resolver : Resolver) : Resolver :=
  foldl (λ res w, write w res) resolver writes.

(** [NewResolver]: nil for a nil index, else a resolver with nothing
    recorded. *)
Definition NewResolver {Index : Type} (index : option Index) : option Resolver :=
  match index with
  | None => None
  | Some _ =>
    Some {| resolvingErrors := [];
            circularReferences := [];
            ignoredPolyReferences := [];
            ignoredArrayReferences := [];
            referencesVisited := 0;
            indexesVisited := 0;
            journeysTaken := 0;
            relativesSeen := 0;
            IgnorePoly := false;
            IgnoreArray := false |}
  end.

(** What holds of the results however they were recorded: a circular
    reference that is an infinite loop is not polymorphic, the ignored
    ones are of the kind they were ignored for, and an error linked to a
    circular reference is linked to an infinite loop that is not
    polymorphic. *)
Definition soundResults (resolver : Resolver) : Prop :=
  Forall (λ c, IsInfiniteLoop c = true → IsPolymorphicResult c = false)
         (circularReferences resolver)
  ∧ Forall (λ c, IsPolymorphicResult c = true) (ignoredPolyReferences resolver)
  ∧ Forall (λ c, IsArrayResult c = true) (ignoredArrayReferences resolver)
  ∧ Forall (λ e, ∀ c, CircularReference e = Some c →
                      IsInfiniteLoop c = true ∧ IsPolymorphicResult c = false)
           (resolvingErrors resolver).

(** With [IgnorePoly] (resp. [IgnoreArray]) set, no circular reference
    recorded is polymorphic (resp. stems from an array). *)
Definition polyKeptOut (resolver : Resolver) : Prop :=
  IgnorePoly resolver = true
  ∧ Forall (λ c, IsPolymorphicResult c = false) (circularReferences resolver).

Definition arraysKeptOut (resolver : Resolver) : Prop :=
  IgnoreArray resolver = true
  ∧ Forall (λ c, IsArrayResult c = false) (circularReferences resolver).

(** The loop that closes [Resolve] and [CheckForCircularReferences]: one
    [ResolvingError] is appended for every circular reference that is an
    infinite loop.  [linked] is true in [CheckForCircularReferences],
    which sets [CircularReference]; [journeyPath] is
    [GenerateJourneyPath], [nodeOf] the address of [LoopPoint.Node]. *)
Section ReportLoops.
Context (journeyPath : CircularReferenceResult → string).
Context (nodeOf : Reference → N).

Definition infiniteLoopError (linked : bool) (circRef : CircularReferenceResult)
    : ResolvingError :=
  {| ErrorRef :=
       errorString ("infinite circular reference detected: "
                    +:+ ref_Name (Start circRef));
     Node := nodeOf (LoopPoint circRef);
     Path := journeyPath circRef;
     CircularReference := if linked then Some circRef else None |}.

Fixpoint reportLoops (linked : bool) (refs : list CircularReferenceResult)
    (errs : list ResolvingError) : list ResolvingError :=
  match refs with
  | [] => errs
  | circRef :: rest =>
    if negb (IsInfiniteLoop circRef) then reportLoops linked rest errs
    else reportLoops linked rest (errs ++ [infiniteLoopError linked circRef])
  end.

(** [Resolve] and [CheckForCircularReferences] from the point where
    [visitIndex] (resp. [visitIndexWithoutDamagingIt]) has returned,
    [resolver] being the resolver as the visit left it. *)
Definition reportAfterVisit (linked : bool) (resolver : Resolver) : Resolver :=
  {| resolvingErrors :=
       reportLoops linked (circularReferences resolver) (resolvingErrors resolver);
     circularReferences := circularReferences resolver;
     ignoredPolyReferences := ignoredPolyReferences resolver;
     ignoredArrayReferences := ignoredArrayReferences resolver;
     referencesVisited := referencesVisited resolver;
     indexesVisited := indexesVisited resolver;
     journeysTaken := journeysTaken resolver;
     relativesSeen := relativesSeen resolver;
     IgnorePoly := IgnorePoly resolver;
     IgnoreArray := IgnoreArray resolver |}.

(** [Resolve] and [CheckForCircularReferences], [writes] being what the
    visit they start with writes; the slice returned and the resolver
    left behind. *)
Definition Resolve (writes : list VisitWrite) (resolver : Resolver)
    : list ResolvingError * Resolver :=
  let resolver := reportAfterVisit false (visit writes resolver) in
  (resolvingErrors resolver, resolver).

Definition CheckForCircularReferences (writes : list VisitWrite) (resolver : Resolver)
    : list ResolvingError * Resolver :=
  let resolver := reportAfterVisit true (visit writes resolver) in
  (resolvingErrors resolver, resolver).

(** A call of one of the methods that change the resolver. *)
Inductive ResolverCall : Type :=
  | callIgnorePoly
  | callIgnoreArray
  | callResolve (writes : list VisitWrite)
  | callCheck (writes : list VisitWrite).

Definition call (c : ResolverCall) (resolver : Resolver) : Resolver :=
  match c with
  | callIgnorePoly => IgnorePolymorphicCircularReferences resolver
  | callIgnoreArray => IgnoreArrayCircularReferences resolver
  | callResolve writes => (Resolve writes resolver).2
  | callCheck writes => (CheckForCircularReferences writes resolver).2
  end.

Definition calls (cs : list ResolverCall) (resolver : Resolver) : Resolver :=
  foldl (λ res c, call c res) resolver cs.
End ReportLoops.

(** ** The converter's version check

    [isOpenAPI30x] hands the pattern [^3\.0\.\d+] to [regexp.MatchString].
    The pattern is kept as a syntax tree over the operators it uses, and
    matched by a backtracking matcher: [matchesAt re pos text] lists the
    ways in which [re] can match a prefix of [text], which starts at
    offset [pos] of the subject, each as the offset and the text left
    after the match.  [MatchString] looks for a match at every offset,
    as an unanchored search does; [^] matches at offset 0 only and [\d]
    an ASCII digit only, as in Go. *)

Inductive Regexp :=
| reBeginText
| reLit (c : ascii)
| reDigit
| reCat (r1 r2 : Regexp)
| rePlus (r : Regexp).

Definition isDigit (c : ascii) : bool :=
  ((48 <=? nat_of_ascii c) && (nat_of_ascii c <=? 57))%nat.

Fixpoint matchesAt (re : Regexp) (pos : nat) (text : string)
    : list (nat * string) :=
  match re with
  | reBeginText => match pos with O => [(pos, text)] | S _ => [] end
  | reLit c =>
    match text with
    | String c' rest => if Ascii.eqb c c' then [(S pos, rest)] else []
    | EmptyString => []
    end
  | reDigit =>
    match text with
    | String c' rest => if isDigit c' then [(S pos, rest)] else []
    | EmptyString => []
    end
  | reCat r1 r2 =>
    flat_map (λ m, matchesAt r2 m.1 m.2) (matchesAt r1 pos text)
  | rePlus r =>
    (fix again (rounds : nat) (p : nat) (t : string) : list (nat * string) :=
       let once := matchesAt r p t in
       match rounds with
       | O => once
       | S rounds' => once ++ flat_map (λ m, again rounds' m.1 m.2) once
       end) (String.length text) pos text
  end.

Fixpoint textFrom (offset : nat) (text : string) : string :=
  match offset, text with
  | S offset', String _ rest => textFrom offset' rest
  | _, _ => text
  end.

Definition MatchString (re : Regexp) (text : string) : bool :=
  existsb (λ offset,
             match matchesAt re offset (textFrom offset text) with
             | [] => false
             | _ :: _ => true
             end)
          (seq 0 (S (String.length text))).

Definition pattern : Regexp :=
  reCat reBeginText
    (reCat (reLit "3") (reCat (reLit ".") (reCat (reLit "0")
       (reCat (reLit ".") (rePlus reDigit))))).

Definition isOpenAPI30x (version : string) : bool :=
  MatchString pattern version.

(** Case analysis on a lookup [localFS r !! k = Some v] in a rolodex built
    by a few [AddLocalFS] on top of [NewRolodex]. *)
Ltac split_roots H :=
  first
    [ rewrite lookup_empty in H; discriminate H
    | apply lookup_insert_Some in H as [[<- <-]|[_ H]]; [|split_roots H] ].

Ltac sample_roots H :=
  unfold Sample.onlySecond, Sample.bothServe, Sample.emptyFileRoot,
    Sample.joinedAndSupplied, Sample.statFailsRoot, Sample.emptyRolodex,
    AddLocalFS, NewRolodex in H;
  cbn [localFS] in H; split_roots H.

(** * Properties *)

(** ** The accessors of [rolodexFile] *)
Section AccessorFacts.
Context `{IndexOps}.

(** C8: every metadata accessor of a [rolodexFile] returns the value of
    the local file when there is one, otherwise the value of the remote
    file when there is one, otherwise the zero value of its type; [IsDir]
    is always false and [Sys] always nil. *)
Theorem rolodexFile_accessors (rf : rolodexFile) :
  match localFile rf, remoteFile rf with
  | Some lf, _ =>
    Name rf = lf_filename lf
    ∧ GetContent rf = String.string_of_list_byte (lf_data lf)
    ∧ GetFileExtension rf = lf_extension lf
    ∧ GetFullPath rf = lf_fullPath lf
    ∧ ModTime rf = lf_lastModified lf
    ∧ Size rf = LocalFile_Size lf
    ∧ Mode rf = LocalFile_Mode lf
    ∧ GetErrors rf = lf_readingErrors lf
  | None, Some rm =>
    Name rf = rm_filename rm
    ∧ GetContent rf = String.string_of_list_byte (rm_data rm)
    ∧ GetFileExtension rf = rm_extension rm
    ∧ GetFullPath rf = rm_fullPath rm
    ∧ ModTime rf = rm_lastModified rm
    ∧ Size rf = RemoteFile_Size rm
    ∧ Mode rf = RemoteFile_Mode rm
    ∧ GetErrors rf = rm_seekingErrors rm
  | None, None =>
    Name rf = ""
    ∧ GetContent rf = ""
    ∧ GetFileExtension rf = UNSUPPORTED
    ∧ GetFullPath rf = ""
    ∧ ModTime rf = zeroTime
    ∧ Size rf = 0
    ∧ Mode rf = 0
    ∧ GetErrors rf = []
  end
  ∧ IsDir rf = false
  ∧ Sys rf = None.
Proof.
  unfold Name, GetContent, GetFileExtension, GetFullPath, ModTime, Size,
    Mode, GetErrors, IsDir, Sys.
  destruct (localFile rf) as [lf|]; [|destruct (remoteFile rf) as [rm|]];
    repeat split.
Qed.
End AccessorFacts.

(** ** [rolodexFile.Index] *)
Section IndexFacts.
Context `{IndexOps}.

Lemma Index_cached (rf : rolodexFile) (idx : SpecIndex) (config : SpecIndexConfig) :
  index rf = Some idx →
  Index rf config = mkIndexOutcome rf config (Some idx) None [].
Proof. intros Hidx. unfold Index. by rewrite Hidx. Qed.

Lemma Index_reads_contentOf (rf : rolodexFile) (config : SpecIndexConfig) :
  index rf = None → parsed (Index rf config) = [contentOf rf].
Proof.
  intros Hidx. unfold Index, contentOf. rewrite Hidx.
  destruct (remoteFile rf), (localFile rf);
    by destruct (ExtractSpecInfo _).
Qed.

(** A call without error leaves its result in the file. *)
Lemma Index_success_caches (rf : rolodexFile) (config : SpecIndexConfig) :
  out_err (Index rf config) = None →
  ∃ idx, out_index (Index rf config) = Some idx
         ∧ index (out_file (Index rf config)) = Some idx.
Proof.
  unfold Index. destruct (index rf) as [idx|] eqn:Hidx.
  - intros _. by exists idx.
  - destruct (ExtractSpecInfo _) as [info|err]; [|done].
    intros _. by eexists.
Qed.

Lemma IndexSeq_cached (rf : rolodexFile) (idx : SpecIndex)
    (configs : list SpecIndexConfig) :
  index rf = Some idx →
  IndexSeq rf configs = (λ config, mkIndexOutcome rf config (Some idx) None []) <$> configs.
Proof.
  intros Hidx. induction configs as [|config rest IH]; [done|].
  cbn [IndexSeq fmap list_fmap]. rewrite (Index_cached _ _ _ Hidx).
  cbn [out_file]. by rewrite IH.
Qed.

(** C5: the index of a file is built at most once.  Once a call of
    [Index] has succeeded, the index it returned is cached on the file;
    a call that found no cached index handed the content of the file to
    the parser exactly once; and every later call, whatever its
    configuration, returns that same index with a nil error, leaves the
    file as it is and does not parse. *)
Theorem Index_built_at_most_once (rf : rolodexFile) (config : SpecIndexConfig)
    (later : list SpecIndexConfig) :
  out_err (Index rf config) = None →
  let first := Index rf config in
  index (out_file first) = out_index first
  ∧ is_Some (out_index first)
  ∧ (index rf = None → parsed first = [contentOf rf])
  ∧ Forall (λ out, out_index out = out_index first
                   ∧ out_err out = None
                   ∧ out_file out = out_file first
                   ∧ parsed out = [])
           (IndexSeq (out_file first) later).
Proof.
  intros Hok first.
  destruct (Index_success_caches rf config Hok) as (idx & Hret & Hcache).
  subst first. rewrite Hret, Hcache. split_and!; [done|by eexists| |].
  - apply Index_reads_contentOf.
  - rewrite (IndexSeq_cached _ idx _ Hcache).
    apply Forall_fmap, Forall_true. by intros config'.
Qed.
End IndexFacts.

(** ** [Discriminator.FindMappingValue] *)

Lemma findMapping_Some (order : list (KeyReference * ValueReference))
    (key : string) (v : ValueReference) :
  findMapping order key = Some v → ∃ k, (k, v) ∈ order ∧ kr_Value k = key.
Proof.
  induction order as [|[k' v'] rest IH]; cbn [findMapping]; [done|].
  destruct (String.eqb_spec (kr_Value k') key) as [Heq|Hne].
  - intros [= ->]. exists k'. split; [left|done].
  - intros Hfind. destruct (IH Hfind) as (k & Hin & Hk).
    exists k. split; [by right|done].
Qed.

Lemma findMapping_None (order : list (KeyReference * ValueReference)) (key : string) :
  findMapping order key = None ↔ ∀ k v, (k, v) ∈ order → kr_Value k ≠ key.
Proof.
  induction order as [|[k' v'] rest IH]; cbn [findMapping].
  - split; [|done]. intros _ k v Hin. by apply elem_of_nil in Hin.
  - destruct (String.eqb_spec (kr_Value k') key) as [Heq|Hne].
    + split; [done|]. intros Hall. destruct (Hall k' v'); [left|done].
    + rewrite IH. split.
      * intros Hall k v [[= -> ->]|Hin]%elem_of_cons; eauto.
      * intros Hall k v Hin. apply (Hall k v). by right.
Qed.

Lemma rangeOrder_elem `{Countable K} {V : Type} (m : gmap K V)
    (order : list (K * V)) (k : K) (v : V) :
  rangeOrder m order → ((k, v) ∈ order ↔ m !! k = Some v).
Proof.
  unfold rangeOrder. intros Hperm. rewrite Hperm. apply elem_of_map_to_list.
Qed.

(** C10: [FindMappingValue] returns a non-nil pointer to the value of some
    entry of [d.Mapping] whose key has the value [key] whenever such an
    entry exists, and returns nil exactly when no key of the mapping has
    that value; this holds for every order in which the range may visit
    the map. *)
Theorem FindMappingValue_spec (d : Discriminator)
    (order : list (KeyReference * ValueReference)) (key : string) :
  rangeOrder (Mapping d) order →
  (∀ v, FindMappingValue d order key = Some v →
        ∃ k, Mapping d !! k = Some v ∧ kr_Value k = key)
  ∧ ((∃ k v, Mapping d !! k = Some v ∧ kr_Value k = key) →
     is_Some (FindMappingValue d order key))
  ∧ (FindMappingValue d order key = None ↔
     ∀ k v, Mapping d !! k = Some v → kr_Value k ≠ key).
Proof.
  intros Horder. unfold FindMappingValue.
  assert (Hnone : findMapping order key = None ↔
                  ∀ k v, Mapping d !! k = Some v → kr_Value k ≠ key).
  { rewrite findMapping_None. split; intros Hall k v Hkv; apply (Hall k v).
    - by apply (rangeOrder_elem _ _ _ _ Horder).
    - by apply (rangeOrder_elem _ _ _ _ Horder) in Hkv. }
  split_and!; [| |done].
  - intros v (k & Hin & Hk)%findMapping_Some. exists k. split; [|done].
    by apply (rangeOrder_elem _ _ _ _ Horder) in Hin.
  - intros (k & v & Hkv & Hk).
    destruct (findMapping order key) as [w|] eqn:Hfind; [by eexists|].
    destruct (proj1 Hnone eq_refl k v Hkv Hk).
Qed.

(** ** Registration of filesystems *)
Section RegistrationFacts.
Context `{IndexOps}.

(** C7 as amended: [AddLocalFS] registers the filesystem under the
    absolute form of [baseDir], and [AddRemoteFS] registers it under
    [baseURL] exactly as supplied; no other entry of either map
    changes. *)
Theorem AddFS_registration_keys (baseDir baseURL : string) (fs : FS) (r : Rolodex) :
  localFS (AddLocalFS baseDir fs r) !! filepath_Abs baseDir = Some fs
  ∧ (∀ k, k ≠ filepath_Abs baseDir →
          localFS (AddLocalFS baseDir fs r) !! k = localFS r !! k)
  ∧ remoteFS (AddLocalFS baseDir fs r) = remoteFS r
  ∧ remoteFS (AddRemoteFS baseURL fs r) !! baseURL = Some fs
  ∧ (∀ k, k ≠ baseURL →
          remoteFS (AddRemoteFS baseURL fs r) !! k = remoteFS r !! k)
  ∧ localFS (AddRemoteFS baseURL fs r) = localFS r.
Proof.
  unfold AddLocalFS, AddRemoteFS. cbn [localFS remoteFS].
  split_and!; try done.
  - apply lookup_insert_eq.
  - intros k Hk. by apply lookup_insert_ne.
  - apply lookup_insert_eq.
  - intros k Hk. by apply lookup_insert_ne.
Qed.

(** X5: registering two roots under different keys gives the same rolodex
    in either order: the order of registration is not recorded. *)
Lemma AddLocalFS_commute (dirA dirB : string) (fsA fsB : FS) (r : Rolodex) :
  filepath_Abs dirA ≠ filepath_Abs dirB →
  AddLocalFS dirB fsB (AddLocalFS dirA fsA r)
  = AddLocalFS dirA fsA (AddLocalFS dirB fsB r).
Proof.
  intros Hne. unfold AddLocalFS. cbn [localFS remoteFS indexed indexConfig indexingDuration].
  f_equal. by apply insert_insert_ne.
Qed.
End RegistrationFacts.

(** C7 as stated fails for remote roots: registered under
    [HTTP://example.com], a filesystem is not found under the canonical
    form [http://example.com] of that URL. *)
Lemma AddRemoteFS_key_not_canonical :
  ¬ (∀ (baseURL : string) (fs : @FS Sample.types) (r : @Rolodex Sample.types),
       remoteFS (AddRemoteFS baseURL fs r) !! canonicalURL baseURL = Some fs).
Proof.
  intros Hclaim.
  specialize (Hclaim "HTTP://example.com" Sample.fsA Sample.emptyRolodex).
  vm_compute in Hclaim. discriminate Hclaim.
Qed.

(** ** [Rolodex.Open] *)
Section OpenFacts.
Context `{IndexOps}.

(** The loop, read off its accumulators: it returns the first file
    found, and has recorded the failures and logged the lookups of the
    roots visited up to there. *)
Lemma openLoop_unfold (location : string) (order : list (string * FS))
    (errs : list error) (log : list (string * string)) :
  openLoop location order errs log
  = mkOpenState (firstFound location order)
                (errs ++ failures location (visited location order))
                (log ++ flat_map (loggedAt location) (visited location order)).
Proof.
  revert errs log.
  induction order as [|[k v] rest IH]; intros errs log.
  - cbn. by rewrite !app_nil_r.
  - cbn [openLoop visited firstFound]. unfold yields.
    cbn [fst snd].
    destruct (openRoot location k v) as [a names] eqn:Hroot. cbn [fst].
    destruct a as [lf|err|]; [|rewrite IH..];
      unfold failures, failureAt, loggedAt;
      cbn [omap list_omap flat_map fst snd]; rewrite Hroot; cbn [fst snd];
      by rewrite <- ?app_assoc, ?app_nil_r.
Qed.

Lemma Open_unfold (self : RolodexPtr) (order : list (string * FS)) (location : string) :
  Open self order location
  = (wrapLocal self <$> firstFound location order,
     errors_Join (failures location (visited location order))).
Proof.
  unfold Open. rewrite openLoop_unfold. cbn [os_localFile errorStack app].
  by destruct (firstFound location order).
Qed.

Lemma visited_prefix (location : string) (order : list (string * FS)) :
  ∃ rest, order = visited location order ++ rest.
Proof.
  induction order as [|root rest IH]; [by exists []|].
  cbn [visited]. destruct (yields location root).
  - by exists rest.
  - destruct IH as [rest' Hrest]. exists rest'. cbn. by rewrite <- Hrest.
Qed.

Lemma visited_none (location : string) (order : list (string * FS)) :
  Forall (λ root, yields location root = false) order →
  visited location order = order ∧ firstFound location order = None.
Proof.
  induction 1 as [|root rest Hroot _ [IHv IHf]]; [done|].
  cbn [visited firstFound]. rewrite Hroot, IHv.
  unfold yields in Hroot.
  by destruct ((openRoot location root.1 root.2).1).
Qed.

Lemma errors_Join_nil (errs : list error) : errors_Join errs = None ↔ errs = [].
Proof. by destruct errs. Qed.

Lemma failures_nil (location : string) (order : list (string * FS)) :
  failures location order = [] ↔
  Forall (λ root, failureAt location root = None) order.
Proof.
  unfold failures. induction order as [|root rest IH]; cbn [omap list_omap].
  - split; [constructor|done].
  - destruct (failureAt location root) eqn:Hfail.
    + split; [done|]. intros Hall.
      apply Forall_cons_1 in Hall as [Hnone _]. congruence.
    + rewrite IH. split; [by constructor|by intros [_ ?]%Forall_cons_1].
Qed.

Lemma loggedAt_attempts (location : string) (root : string * FS) :
  isUrl location = false → loggedAt location root = attemptsAt location root.
Proof.
  intros Hurl. unfold loggedAt, attemptsAt, openRoot, openBoth. rewrite Hurl.
  destruct (fs_Open root.2 (fileLookupOf root.1 location)) as [f|e]; [done|].
  by destruct (fs_Open root.2 location).
Qed.

(** A root that is the only one to yield a file is the one [Open] stops
    at, and every root before it has not yielded. *)
Lemma firstFound_only (location : string) (order : list (string * FS))
    (root : string * FS) (lf : LocalFile) :
  root ∈ order →
  (openRoot location root.1 root.2).1 = Found lf →
  (∀ other, other ∈ order → other = root ∨ yields location other = false) →
  ∃ before after,
    order = before ++ root :: after
    ∧ visited location order = before ++ [root]
    ∧ firstFound location order = Some lf
    ∧ Forall (λ other, yields location other = false) before.
Proof.
  intros Hin Hfound Hothers.
  assert (Hyes : yields location root = true).
  { unfold yields. by rewrite Hfound. }
  induction order as [|root0 rest IH]; [by apply elem_of_nil in Hin|].
  cbn [visited firstFound].
  destruct (yields location root0) eqn:Hy0.
  - destruct (Hothers root0) as [-> | Hno]; [left| |congruence].
    exists [], rest. rewrite Hfound. by split_and!.
  - assert (Hin' : root ∈ rest).
    { apply elem_of_cons in Hin as [->|?]; [congruence|done]. }
    destruct IH as (before & after & -> & Hv & Hf & Hall); [done| |].
    { intros other Hother. apply Hothers. by right. }
    exists (root0 :: before), after. rewrite Hv, Hf.
    assert (Hy0' := Hy0). unfold yields in Hy0'.
    destruct ((openRoot location root0.1 root0.2).1); [done| |];
      split_and!; try done; by constructor.
Qed.
End OpenFacts.

Section OpenProperties.
Context `{IndexOps}.

Lemma rangeOrder_Forall (r : Rolodex) (order : list (string * FS))
    (P : string * FS → Prop) :
  rangeOrder (localFS r) order →
  (∀ k v, localFS r !! k = Some v → P (k, v)) →
  Forall P order.
Proof.
  intros Horder HP. apply Forall_forall. intros [k v] Hin.
  apply HP. by apply (rangeOrder_elem _ _ _ _ Horder).
Qed.

Lemma Open_no_yield (self : RolodexPtr) (r : Rolodex)
    (order : list (string * FS)) (location : string) :
  rangeOrder (localFS r) order →
  (∀ k v, localFS r !! k = Some v → yields location (k, v) = false) →
  Open self order location = (None, errors_Join (failures location order)).
Proof.
  intros Horder Hnone.
  assert (Hall : Forall (λ root, yields location root = false) order)
    by (by apply (rangeOrder_Forall r)).
  destruct (visited_none location order Hall) as [Hv Hf].
  by rewrite Open_unfold, Hv, Hf.
Qed.

(** C2 as amended: when no registered filesystem yields a file for
    [location], [Open] returns no file together with the join of the
    lookup failures recorded for the roots, in the order visited.  That
    combined error is non-nil exactly when at least one root recorded a
    failure; it is nil when nothing was recorded (no root registered, a
    location that is a URL, roots that only served empty content). *)
Theorem Open_without_file (self : RolodexPtr) (r : Rolodex)
    (order : list (string * FS)) (location : string) :
  rangeOrder (localFS r) order →
  (∀ k v, localFS r !! k = Some v → yields location (k, v) = false) →
  Open self order location = (None, errors_Join (failures location order))
  ∧ ((Open self order location).2 ≠ None ↔
     ∃ k v, localFS r !! k = Some v ∧ is_Some (failureAt location (k, v))).
Proof.
  intros Horder Hnone.
  rewrite (Open_no_yield self r order location Horder Hnone).
  split; [done|]. cbn [snd].
  rewrite errors_Join_nil, failures_nil, <- Exists_Forall_neg; last first.
  { intros root. destruct (failureAt location root); [by right|by left]. }
  rewrite Exists_exists. split.
  - intros ([k v] & Hin & Hfail). exists k, v. split.
    + by apply (rangeOrder_elem _ _ _ _ Horder).
    + destruct (failureAt location (k, v)); [by eexists|done].
  - intros (k & v & Hkv & [e He]). exists (k, v). split.
    + by apply (rangeOrder_elem _ _ _ _ Horder).
    + by rewrite He.
Qed.

(** C3 as amended: for a location that is not a URL, [Open] takes the
    registered roots one after the other (in the order of the range).
    Under each root it first looks up the location joined against that
    root (the location itself when it is absolute) and looks up the
    location exactly as supplied only when that first lookup failed.  It
    stops at the first root that yields a file, which is the file it
    returns. *)
Theorem Open_lookup_order (self : RolodexPtr) (r : Rolodex)
    (order : list (string * FS)) (location : string) :
  rangeOrder (localFS r) order →
  isUrl location = false →
  OpenLookups order location
    = flat_map (attemptsAt location) (visited location order)
  ∧ (∃ rest, order = visited location order ++ rest)
  ∧ (Open self order location).1 = wrapLocal self <$> firstFound location order.
Proof.
  intros _ Hurl. unfold OpenLookups.
  rewrite openLoop_unfold, Open_unfold. cbn [lookups fst app].
  split_and!; [|apply visited_prefix|done].
  induction (visited location order) as [|root rest IH]; [done|].
  cbn [flat_map]. by rewrite IH, loggedAt_attempts.
Qed.

(** C4 as amended: the roots are visited in the order of a Go map
    range, which does not depend on the order of registration.  Whatever
    that order is, a location for which exactly one registered root
    yields a file resolves to the file of that root; the error returned
    next to it joins the lookup failures of the roots visited before that
    root (nil when there were none). *)
Theorem Open_finds_only_serving_root (self : RolodexPtr) (r : Rolodex)
    (order : list (string * FS)) (location : string)
    (k : string) (v : FS) (lf : LocalFile) :
  rangeOrder (localFS r) order →
  localFS r !! k = Some v →
  (openRoot location k v).1 = Found lf →
  (∀ k' v', localFS r !! k' = Some v' → k' ≠ k → yields location (k', v') = false) →
  (Open self order location).1 = Some (wrapLocal self lf)
  ∧ ∃ before after,
      order = before ++ (k, v) :: after
      ∧ (Open self order location).2 = errors_Join (failures location before).
Proof.
  intros Horder Hkv Hfound Hothers.
  destruct (firstFound_only location order (k, v) lf)
    as (before & after & Hsplit & Hv & Hf & Hbefore).
  - by apply (rangeOrder_elem _ _ _ _ Horder).
  - done.
  - intros [k' v'] Hin. apply (rangeOrder_elem _ _ _ _ Horder) in Hin.
    destruct (decide (k' = k)) as [->|Hne]; [left|right; eauto].
    congruence.
  - rewrite Open_unfold, Hf, Hv. split; [done|].
    exists before, after. split; [done|]. cbn [snd].
    unfold failures. rewrite omap_app. cbn [omap list_omap].
    unfold failureAt at 2. cbn [fst snd]. rewrite Hfound.
    by rewrite app_nil_r.
Qed.

(** C9 as amended: a root under which the file opens, reads as zero
    bytes and answers [Stat] is passed over without any error being
    recorded, and so is every root when the location is a URL with a
    scheme.  Consequently, when every registered root is of that kind
    (in particular when no local filesystem is registered), [Open]
    returns no file and a nil error. *)
Theorem Open_empty_content_passes (self : RolodexPtr) (r : Rolodex)
    (order : list (string * FS)) (location : string) :
  rangeOrder (localFS r) order →
  (∀ k v, localFS r !! k = Some v →
          isUrl location = true ∨ servesEmpty location k v) →
  (∀ k v, localFS r !! k = Some v → (openRoot location k v).1 = Passed)
  ∧ Open self order location = (None, None).
Proof.
  intros Horder Hkind.
  assert (Hpass : ∀ k v, localFS r !! k = Some v →
                         (openRoot location k v).1 = Passed).
  { intros k v Hkv. unfold openRoot.
    destruct (isUrl location) eqn:Hurl; [done|].
    destruct (Hkind k v Hkv) as [|[modTime Hempty]]; [done|].
    destruct (openBoth v (fileLookupOf k location) location) as [res names].
    cbn [fst] in Hempty. by subst res. }
  split; [done|].
  rewrite (Open_no_yield self r order location Horder).
  - f_equal. apply errors_Join_nil, failures_nil.
    apply (rangeOrder_Forall r); [done|]. intros k v Hkv.
    unfold failureAt. cbn [fst snd]. by rewrite (Hpass k v Hkv).
  - intros k v Hkv. unfold yields. cbn [fst snd]. by rewrite (Hpass k v Hkv).
Qed.
End OpenProperties.

Lemma rangeOrder_refl `{Countable K} {V : Type} (m : gmap K V) :
  rangeOrder m (map_to_list m).
Proof. by unfold rangeOrder. Qed.

(** ** [Open] on concrete rolodexes *)
Section OpenExamples.
#[local] Existing Instance Sample.types.
#[local] Existing Instance Sample.ops.

Lemma bothServe_roots :
  map_to_list (localFS Sample.bothServe) = [("/a", Sample.fsA); ("/b", Sample.fsB)].
Proof. vm_compute. reflexivity. Qed.

(** C2 as stated fails: under the single root [/specs] the file
    [empty.yaml] opens and is empty, so no filesystem yields a file, and
    [Open] returns a nil error. *)
Lemma Open_without_file_nil_error :
  ¬ (∀ (r : Rolodex) (order : list (string * FS)) (location : string),
       rangeOrder (localFS r) order →
       (∀ k v, localFS r !! k = Some v → yields location (k, v) = false) →
       (Open 1%positive order location).1 = None ∧ (Open 1%positive order location).2 ≠ None).
Proof.
  intros Hclaim.
  destruct (Hclaim Sample.emptyFileRoot
              (map_to_list (localFS Sample.emptyFileRoot)) "empty.yaml")
    as [_ Herr].
  - apply rangeOrder_refl.
  - intros k v Hkv. sample_roots Hkv. vm_compute. reflexivity.
  - apply Herr. vm_compute. reflexivity.
Qed.

Lemma Open_without_file_witness :
  Open 1%positive (map_to_list (localFS Sample.onlySecond)) "missing.yaml"
  = (None, Some (joinError [Sample.notExist; Sample.notExist])).
Proof.
  destruct (Open_without_file 1%positive Sample.onlySecond
              (map_to_list (localFS Sample.onlySecond)) "missing.yaml")
    as [Hopen _].
  - apply rangeOrder_refl.
  - intros k v Hkv. sample_roots Hkv; vm_compute; reflexivity.
  - rewrite Hopen. vm_compute. reflexivity.
Defined.

(** C3 as stated fails: with [/specs] registered and serving one file as
    [/specs/pet.yaml] and another as [pet.yaml], opening [pet.yaml] looks
    up [/specs/pet.yaml] first, never looks up [pet.yaml] as supplied, and
    returns the former file. *)
Lemma Open_tries_joined_name_first :
  ¬ (∀ (r : Rolodex) (order : list (string * FS)) (location : string),
       rangeOrder (localFS r) order →
       isUrl location = false →
       order ≠ [] →
       ∃ k, head (OpenLookups order location) = Some (k, location)).
Proof.
  intros Hclaim.
  destruct (Hclaim Sample.joinedAndSupplied
              (map_to_list (localFS Sample.joinedAndSupplied)) "pet.yaml")
    as [k Hhead].
  - apply rangeOrder_refl.
  - reflexivity.
  - vm_compute. discriminate.
  - vm_compute in Hhead. discriminate Hhead.
Qed.

Lemma Open_lookup_order_witness :
  OpenLookups (map_to_list (localFS Sample.onlySecond)) "pet.yaml"
  = [("/a", "/a/pet.yaml"); ("/a", "pet.yaml"); ("/b", "/b/pet.yaml")].
Proof.
  destruct (Open_lookup_order 1%positive Sample.onlySecond
              (map_to_list (localFS Sample.onlySecond)) "pet.yaml")
    as [Hlog _].
  - apply rangeOrder_refl.
  - reflexivity.
  - rewrite Hlog. vm_compute. reflexivity.
Defined.

(** C4 as stated fails: [/a] is registered before [/b] and both serve
    [pet.yaml], yet the range may visit [/b] first, and [Open] then
    returns the file of [/b]. *)
Lemma Open_order_not_registration_order :
  ¬ (∀ order : list (string * FS),
       rangeOrder (localFS Sample.bothServe) order →
       GetFullPath <$> (Open 1%positive order "pet.yaml").1 = Some "/a/pet.yaml").
Proof.
  intros Hclaim.
  specialize (Hclaim [("/b", Sample.fsB); ("/a", Sample.fsA)]).
  assert (Hpath : GetFullPath <$>
            (Open 1%positive [("/b", Sample.fsB); ("/a", Sample.fsA)] "pet.yaml").1
          = Some "/b/pet.yaml") by (vm_compute; reflexivity).
  rewrite Hclaim in Hpath; [discriminate Hpath|].
  unfold rangeOrder. rewrite bothServe_roots. apply perm_swap.
Qed.

Lemma Open_finds_only_serving_root_witness :
  GetContent <$> (Open 1%positive (map_to_list (localFS Sample.onlySecond)) "pet.yaml").1
  = Some "openapi: b".
Proof.
  destruct (Open_finds_only_serving_root 1%positive Sample.onlySecond
              (map_to_list (localFS Sample.onlySecond)) "pet.yaml"
              "/b" Sample.fsB
              Sample.petOfB)
    as [Hfile _].
  - apply rangeOrder_refl.
  - vm_compute. reflexivity.
  - vm_compute. reflexivity.
  - intros k v Hkv Hne. sample_roots Hkv; [done|]. vm_compute. reflexivity.
  - rewrite Hfile. vm_compute. reflexivity.
Defined.

(** C9 as stated fails: under [/specs] the file opens and reads as zero
    bytes, but its [Stat] fails; [Open] records that failure and returns
    it. *)
Lemma Open_empty_content_stat_error :
  ¬ (∀ (r : Rolodex) (order : list (string * FS)) (location : string),
       rangeOrder (localFS r) order →
       (∀ k v, localFS r !! k = Some v → readsEmpty location k v) →
       (∀ k v, localFS r !! k = Some v → failureAt location (k, v) = None)
       ∧ Open 1%positive order location = (None, None)).
Proof.
  intros Hclaim.
  destruct (Hclaim Sample.statFailsRoot
              (map_to_list (localFS Sample.statFailsRoot)) "empty.yaml")
    as [_ Hopen].
  - apply rangeOrder_refl.
  - intros k v Hkv. sample_roots Hkv. by eexists.
  - vm_compute in Hopen. discriminate Hopen.
Qed.

Lemma Open_empty_content_passes_witness :
  Open 1%positive (map_to_list (localFS Sample.emptyFileRoot)) "empty.yaml" = (None, None).
Proof.
  destruct (Open_empty_content_passes 1%positive Sample.emptyFileRoot
              (map_to_list (localFS Sample.emptyFileRoot)) "empty.yaml")
    as [_ Hopen].
  - apply rangeOrder_refl.
  - intros k v Hkv. right. sample_roots Hkv. by exists 1700000000.
  - exact Hopen.
Defined.
End OpenExamples.

(** ** [Rolodex.IndexTheRolodex] *)
Section IndexTheRolodexFacts.
Context `{IndexOps}.

Lemma selecting_lt (st : IndexState) :
  selecting st = true → (indexingCompleted st < totalToIndex st)%nat.
Proof.
  unfold selecting. intros [_ Hlt%Nat.ltb_lt]%andb_true_iff. done.
Qed.

(** No move changes [totalToIndex]; a receive that counts a completion
    happens only while fewer than [totalToIndex] are counted, and only a
    receive from [errChan] adds an error, counting a completion with
    it. *)
Lemma step_gatherBound (m : Move) (st st' : IndexState) :
  step m st = Some st' →
  totalToIndex st' = totalToIndex st
  ∧ (gatherBound st → gatherBound st').
Proof.
  unfold gatherBound.
  destruct m as [i j|i j|i j|i|]; cbn [step]; intros Hstep.
  - destruct (getFile i j st) as [[]|]; simplify_eq. done.
  - destruct (getFile i j st) as [[]|]; try done.
    destruct (selecting st) eqn:Hsel; simplify_eq.
    apply selecting_lt in Hsel. cbn. rewrite length_app. cbn. lia.
  - destruct (getFile i j st) as [[]|]; try done.
    destruct (selecting st) eqn:Hsel; simplify_eq. done.
  - destruct (roots st !! i) as [[]|]; try done.
    destruct (selecting st) eqn:Hsel; [|done]. cbn [andb] in Hstep.
    destruct (forallb isFileDone files); simplify_eq.
    apply selecting_lt in Hsel. cbn. lia.
  - destruct (negb (loopLeft st) && _); simplify_eq. done.
Qed.

Lemma runMoves_gatherBound (sched : list Move) (st st' : IndexState) :
  runMoves sched st = Some st' →
  gatherBound st →
  totalToIndex st' = totalToIndex st ∧ gatherBound st'.
Proof.
  revert st. induction sched as [|m rest IH]; intros st; cbn [runMoves].
  - intros [= ->] Hb. done.
  - destruct (step m st) as [st1|] eqn:Hstep; [|done].
    intros Hrun Hb.
    destruct (step_gatherBound m st st1 Hstep) as [Htot Hb1].
    destruct (IH st1 Hrun (Hb1 Hb)) as [Htot' Hb'].
    split; [congruence|done].
Qed.

Lemma countErrors_Join (errs : list error) :
  countErrors (errors_Join errs) = length errs.
Proof. by destruct errs. Qed.

(** X21: however many files fail, the error that [IndexTheRolodex] returns
    joins at most as many errors as there are registered filesystems. *)
Lemma IndexTheRolodex_errors_at_most_roots (sched : list Move) (elapsed : Z)
    (r : Rolodex) (call : IndexCall) :
  IndexTheRolodex sched elapsed r = Some call →
  (countErrors (returned call) ≤ size (localFS r) + size (remoteFS r))%nat.
Proof.
  unfold IndexTheRolodex. destruct (indexed r).
  - intros [= <-]. cbn. lia.
  - destruct (runMoves _ _) as [st|] eqn:Hrun; [|done].
    destruct (loopLeft st); [|done]. intros [= <-]. cbn [returned].
    rewrite countErrors_Join.
    apply runMoves_gatherBound in Hrun as [Htot [Herr Hdone]].
    + cbn in Htot. lia.
    + unfold gatherBound. cbn. lia.
Qed.

Lemma storeRoot_indexed (ts : list RootTask) (r : Rolodex) :
  indexed (foldr storeRoot r ts) = indexed r.
Proof.
  induction ts as [|t rest IH]; [done|].
  cbn [foldr]. by destruct t.
Qed.

(** No execution of [IndexTheRolodex] assigns [r.indexed]. *)
Lemma IndexTheRolodex_keeps_indexed (sched : list Move) (elapsed : Z)
    (r : Rolodex) (call : IndexCall) :
  IndexTheRolodex sched elapsed r = Some call →
  indexed (rolodexAfter call) = indexed r.
Proof.
  unfold IndexTheRolodex. destruct (indexed r) eqn:Hflag.
  - by intros [= <-].
  - destruct (runMoves _ _) as [st|]; [|done].
    destruct (loopLeft st); [|done]. intros [= <-].
    cbn [rolodexAfter finishRun indexed]. by rewrite storeRoot_indexed.
Qed.

(** With the flag set the call does nothing and returns nil. *)
Lemma IndexTheRolodex_guarded (sched : list Move) (elapsed : Z) (r : Rolodex) :
  indexed r = true →
  IndexTheRolodex sched elapsed r = Some (mkIndexCall r None []).
Proof. intros Hflag. unfold IndexTheRolodex. by rewrite Hflag. Qed.
End IndexTheRolodexFacts.

(** ** Every execution is listed *)
Section ExecutionFacts.
Context `{IndexOps}.

Lemma getFile_Some (i j : nat) (st : IndexState) (t : FileTask) :
  getFile i j st = Some t →
  ∃ root, roots st !! i = Some root ∧ rootFiles root !! j = Some t.
Proof.
  unfold getFile. destruct (roots st !! i) as [root|]; [|done].
  cbn. intros Hj. by exists root.
Qed.

Lemma fileMoves_elem (i j : nat) (files : list FileTask) (m : Move) :
  (j < length files)%nat →
  m ∈ [runIndex i j; recvErr i j; recvIdx i j] →
  m ∈ fileMoves i files.
Proof.
  intros Hj Hm. unfold fileMoves. apply list_elem_of_In, in_flat_map.
  exists j. split; [apply in_seq; lia|by apply list_elem_of_In].
Qed.

Lemma candidates_root (i : nat) (st : IndexState) (root : RootTask) (m : Move) :
  roots st !! i = Some root →
  m ∈ recvDone i :: fileMoves i (rootFiles root) →
  m ∈ candidates st.
Proof.
  intros Hi Hm. unfold candidates. right.
  apply list_elem_of_In, in_flat_map. exists i. split.
  - apply in_seq. apply lookup_lt_Some in Hi. lia.
  - apply list_elem_of_In. by rewrite Hi.
Qed.

Lemma step_candidate (m : Move) (st st' : IndexState) :
  step m st = Some st' → m ∈ candidates st.
Proof.
  destruct m as [i j|i j|i j|i|]; cbn [step]; intros Hstep.
  - destruct (getFile i j st) as [t|] eqn:Hget; [|done].
    apply getFile_Some in Hget as (root & Hi & Hj).
    apply (candidates_root i st root); [done|]. right.
    apply (fileMoves_elem i j); [by apply lookup_lt_Some in Hj|]. set_solver.
  - destruct (getFile i j st) as [t|] eqn:Hget; [|done].
    apply getFile_Some in Hget as (root & Hi & Hj).
    apply (candidates_root i st root); [done|]. right.
    apply (fileMoves_elem i j); [by apply lookup_lt_Some in Hj|]. set_solver.
  - destruct (getFile i j st) as [t|] eqn:Hget; [|done].
    apply getFile_Some in Hget as (root & Hi & Hj).
    apply (candidates_root i st root); [done|]. right.
    apply (fileMoves_elem i j); [by apply lookup_lt_Some in Hj|]. set_solver.
  - destruct (roots st !! i) as [root|] eqn:Hi; [|done].
    apply (candidates_root i st root); [done|]. left.
  - left.
Qed.

Lemma step_successor (m : Move) (st st' : IndexState) :
  step m st = Some st' → st' ∈ successors st.
Proof.
  intros Hstep. unfold successors. apply list_elem_of_omap.
  exists m. split; [by apply (step_candidate m st st')|done].
Qed.

Lemma reach_self (n : nat) (st : IndexState) : st ∈ reach n st.
Proof. destruct n; left. Qed.

Lemma reach_step (n : nat) (st st1 st' : IndexState) :
  st1 ∈ successors st → st' ∈ reach n st1 → st' ∈ reach (S n) st.
Proof.
  intros Hsucc Hreach. cbn [reach]. right.
  apply list_elem_of_In, in_flat_map. exists st1.
  split; by apply list_elem_of_In.
Qed.

Lemma reach_mono (n n' : nat) (st st' : IndexState) :
  (n ≤ n')%nat → st' ∈ reach n st → st' ∈ reach n' st.
Proof.
  revert n' st. induction n as [|n IH]; intros n' st Hle.
  - cbn. intros ->%list_elem_of_singleton. apply reach_self.
  - destruct n' as [|n']; [lia|]. cbn [reach].
    intros [->|Hin]%elem_of_cons; [left|right].
    apply list_elem_of_In, in_flat_map in Hin as (st1 & Hsucc & Hreach).
    apply list_elem_of_In, in_flat_map. exists st1. split; [done|].
    apply list_elem_of_In, IH; [lia|by apply list_elem_of_In].
Qed.

Lemma runMoves_reach (sched : list Move) (st st' : IndexState) :
  runMoves sched st = Some st' → st' ∈ reach (length sched) st.
Proof.
  revert st. induction sched as [|m rest IH]; intros st; cbn [runMoves].
  - intros [= ->]. left.
  - destruct (step m st) as [st1|] eqn:Hstep; [|done]. intros Hrun.
    apply (reach_step _ st st1); [by apply (step_successor m)|by apply IH].
Qed.
End ExecutionFacts.

(** ** Every move uses up budget *)
Section BudgetFacts.
Context `{IndexOps}.

Lemma sum_list_insert {A : Type} (f : A → nat) (l : list A) (j : nat) (x y : A) :
  l !! j = Some x →
  (sum_list (f <$> <[j := y]> l) + f x = sum_list (f <$> l) + f y)%nat.
Proof.
  revert j. induction l as [|a l IH]; intros [|j] Hj; try done.
  - injection Hj as ->. cbn. lia.
  - specialize (IH j Hj).
    change (<[S j:=y]> (a :: l)) with (a :: <[j:=y]> l).
    rewrite !fmap_cons. cbn [sum_list_with id]. lia.
Qed.

Lemma rootWeight_setRootFiles (root : RootTask) (j : nat) (t t' : FileTask) :
  rootFiles root !! j = Some t →
  (rootWeight (setRootFiles (<[j := t']> (rootFiles root)) root) + fileWeight t
   = rootWeight root + fileWeight t')%nat.
Proof.
  intros Hj. pose proof (sum_list_insert fileWeight _ j t t' Hj) as Hsum.
  destruct root; cbn in *; lia.
Qed.

Lemma setFile_weight (i j : nat) (st : IndexState) (t t' : FileTask) :
  getFile i j st = Some t →
  (sum_list (rootWeight <$> setFile i j t' st) + fileWeight t
   = sum_list (rootWeight <$> roots st) + fileWeight t')%nat.
Proof.
  intros (root & Hi & Hj)%getFile_Some. unfold setFile. rewrite Hi.
  pose proof (sum_list_insert rootWeight _ i root
                (setRootFiles (<[j := t']> (rootFiles root)) root) Hi) as Hsum.
  pose proof (rootWeight_setRootFiles root j t t' Hj). lia.
Qed.

Lemma step_weight (m : Move) (st st' : IndexState) :
  step m st = Some st' → (weight st' < weight st)%nat.
Proof.
  unfold weight.
  destruct m as [i j|i j|i j|i|]; cbn [step]; intros Hstep.
  - destruct (getFile i j st) as [[name rf fullPath| | |]|] eqn:Hget; try done.
    destruct (out_err (Index rf _)) as [err|]; simplify_eq; cbn [loopLeft roots];
      match goal with
      | |- context [setFile i j ?t st] =>
        pose proof (setFile_weight i j st _ t Hget) as Hw
      end; cbn in Hw; lia.
  - destruct (getFile i j st) as [[|name rf err idx| |]|] eqn:Hget; try done.
    destruct (selecting st); simplify_eq. cbn [loopLeft roots].
    pose proof (setFile_weight i j st _ (fileSendIdx name rf idx) Hget) as Hw.
    cbn in Hw. lia.
  - destruct (getFile i j st) as [[| |name rf idx|]|] eqn:Hget; try done.
    destruct (selecting st); simplify_eq. cbn [loopLeft roots].
    pose proof (setFile_weight i j st _ (fileDone name rf) Hget) as Hw.
    cbn in Hw. lia.
  - destruct (roots st !! i) as [[remote key files|]|] eqn:Hi; try done.
    destruct (selecting st && forallb isFileDone files); simplify_eq.
    cbn [loopLeft roots].
    pose proof (sum_list_insert rootWeight _ i _ (rootExited remote key files) Hi) as Hw.
    cbn in Hw. lia.
  - destruct (loopLeft st); cbn [negb andb] in Hstep; [done|].
    destruct (negb _); simplify_eq. cbn. lia.
Qed.

Lemma runMoves_weight (sched : list Move) (st st' : IndexState) :
  runMoves sched st = Some st' → (length sched + weight st' ≤ weight st)%nat.
Proof.
  revert st. induction sched as [|m rest IH]; intros st; cbn [runMoves].
  - intros [= ->]. cbn. lia.
  - destruct (step m st) as [st1|] eqn:Hstep; [|done]. intros Hrun.
    apply step_weight in Hstep. apply IH in Hrun. cbn. lia.
Qed.

(** Whatever the schedule, the state it leads to is among the listed
    ones. *)
Lemma runMoves_listed (sched : list Move) (st st' : IndexState) :
  runMoves sched st = Some st' → st' ∈ reach (weight st) st.
Proof.
  intros Hrun. apply (reach_mono (length sched)).
  - apply runMoves_weight in Hrun. lia.
  - by apply runMoves_reach.
Qed.

(** A call that returns while [indexed] is false returns from one of the
    listed states. *)
Lemma IndexTheRolodex_listed (sched : list Move) (elapsed : Z) (r : Rolodex)
    (call : IndexCall) :
  indexed r = false →
  IndexTheRolodex sched elapsed r = Some call →
  ∃ st, st ∈ returnedStates r
        ∧ call = mkIndexCall (finishRun elapsed st (withAvoidBuildIndex r))
                             (errors_Join (caughtErrors st)) (parseLog st).
Proof.
  intros Hflag. unfold IndexTheRolodex. rewrite Hflag.
  destruct (runMoves _ _) as [st|] eqn:Hrun; [|done].
  destruct (loopLeft st) eqn:Hleft; [|done]. intros [= <-].
  exists st. split; [|done]. unfold returnedStates.
  apply list_elem_of_filter. split; [done|]. by apply (runMoves_listed sched).
Qed.
End BudgetFacts.

(** ** [IndexTheRolodex] on concrete rolodexes *)
Section IndexExamples.
#[local] Existing Instance Sample.types.
#[local] Existing Instance Sample.ops.

(** C1, evaluated where it fails.  One [LocalFS] root holds one file that
    is not a valid document.  The first call returns the error of that
    file and leaves [indexed] false; the second call on the rolodex it
    left is not a no-op: the file is parsed again and the error is
    returned again instead of nil. *)
Theorem IndexTheRolodex_second_call_runs_again :
  (λ calls : IndexCall * IndexCall,
     (returned calls.1, indexed (rolodexAfter calls.1),
      returned calls.2, parseCalls calls.2))
    <$> callTwice [runIndex 0 0; recvErr 0 0; leaveLoop] 5
                  [runIndex 0 0; recvErr 0 0; leaveLoop] 7
                  Sample.oneBadFile
  = Some (Some (joinError [Sample.unsupportedSpec]), false,
          Some (joinError [Sample.unsupportedSpec]),
          [String.list_byte_of_string Sample.invalidDoc]).
Proof. vm_compute. reflexivity. Qed.

(** The states from which a second call can return all hold the one
    error and the one parse; the clock reading plays no part. *)
Lemma returnedStates_elapsed (elapsed : Z) (st : IndexState) (r : Rolodex) :
  returnedStates (finishRun elapsed st r) = returnedStates (finishRun 0 st r).
Proof. reflexivity. Qed.

Lemma oneBadFile_second_runs :
  (λ st, (λ st2, (caughtErrors st2, parseLog st2))
           <$> returnedStates
                 (finishRun 0 st (withAvoidBuildIndex Sample.oneBadFile)))
    <$> returnedStates Sample.oneBadFile
  = [[([Sample.unsupportedSpec], [String.list_byte_of_string Sample.invalidDoc])]].
Proof. vm_compute. reflexivity. Qed.

(** Whatever the two schedules, the second call on [oneBadFile] parses
    the file again and returns the error again. *)
Lemma oneBadFile_every_second_call (sched1 sched2 : list Move) (elapsed1 elapsed2 : Z)
    (first second : IndexCall) :
  IndexTheRolodex sched1 elapsed1 Sample.oneBadFile = Some first →
  IndexTheRolodex sched2 elapsed2 (rolodexAfter first) = Some second →
  returned second = Some (joinError [Sample.unsupportedSpec])
  ∧ parseCalls second = [String.list_byte_of_string Sample.invalidDoc].
Proof.
  intros Hfirst Hsecond.
  assert (Hflag : indexed (rolodexAfter first) = false).
  { rewrite (IndexTheRolodex_keeps_indexed _ _ _ _ Hfirst). reflexivity. }
  apply IndexTheRolodex_listed in Hfirst as (st & Hst & ->); [|reflexivity].
  apply IndexTheRolodex_listed in Hsecond as (st2 & Hst2 & ->); [|exact Hflag].
  cbn [rolodexAfter] in Hst2. rewrite returnedStates_elapsed in Hst2.
  pose proof oneBadFile_second_runs as Hall.
  apply (list_elem_of_fmap_2 (λ st2, (caughtErrors st2, parseLog st2))) in Hst2.
  apply (list_elem_of_fmap_2
           (λ st, (λ st2, (caughtErrors st2, parseLog st2))
                    <$> returnedStates
                          (finishRun 0 st (withAvoidBuildIndex Sample.oneBadFile))))
    in Hst.
  rewrite Hall in Hst. apply list_elem_of_singleton in Hst.
  rewrite Hst in Hst2. apply list_elem_of_singleton in Hst2.
  injection Hst2 as Herrs Hlog. clear Hall Hst Hflag.
  cbn [returned parseCalls]. rewrite Herrs, Hlog. split; reflexivity.
Qed.

Lemma twoBadFiles_runs :
  caughtErrors <$> returnedStates Sample.twoBadFiles
  = replicate 10 [Sample.unsupportedSpec].
Proof. vm_compute. reflexivity. Qed.

(** With two invalid files under the single root, every execution that
    returns returns exactly one error. *)
Lemma twoBadFiles_every_call (sched : list Move) (elapsed : Z) (call : IndexCall) :
  IndexTheRolodex sched elapsed Sample.twoBadFiles = Some call →
  returned call = Some (joinError [Sample.unsupportedSpec]).
Proof.
  intros Hcall.
  apply IndexTheRolodex_listed in Hcall as (st & Hst & ->); [|reflexivity].
  apply (list_elem_of_fmap_2 caughtErrors) in Hst.
  rewrite twoBadFiles_runs in Hst. apply elem_of_replicate in Hst as [Herrs _].
  cbn [returned]. rewrite Herrs. reflexivity.
Qed.

Lemma goodAndBad_runs :
  (λ st, (caughtErrors st, lookup 1%nat <$> taskPhases st))
    <$> returnedStates Sample.goodAndBad
  = replicate 8 ([Sample.unsupportedSpec],
                 [Some ("/specs/bad.yaml", blockedOnIndexChan)]).
Proof. vm_compute. reflexivity. Qed.

(** With a valid and an invalid file under the single root, every
    execution that returns leaves the goroutine of the invalid file
    blocked on its send to [indexChan]: the caller has left the loop. *)
Lemma goodAndBad_every_run (st : IndexState) :
  st ∈ returnedStates Sample.goodAndBad →
  caughtErrors st = [Sample.unsupportedSpec]
  ∧ lookup 1%nat <$> taskPhases st = [Some ("/specs/bad.yaml", blockedOnIndexChan)].
Proof.
  intros Hst.
  apply (list_elem_of_fmap_2
           (λ st, (caughtErrors st, lookup 1%nat <$> taskPhases st))) in Hst.
  rewrite goodAndBad_runs in Hst. apply elem_of_replicate in Hst as [Heq _].
  injection Heq as Herrs Hphase. split; assumption.
Qed.

(** C6, evaluated where it fails.  Under one root with two invalid files
    the call returns as soon as the first error is received: one error is
    returned, and the goroutine of the other file stays blocked on its
    send to [errChan].  Under one root with a valid and an invalid file
    the call can return the error of the invalid file before the valid
    file has been indexed: no index was received and the valid file holds
    none. *)
Theorem IndexTheRolodex_returns_at_first_error :
  returned <$> IndexTheRolodex [runIndex 0 0; runIndex 0 1; recvErr 0 0; leaveLoop]
                               5 Sample.twoBadFiles
  = Some (Some (joinError [Sample.unsupportedSpec]))
  ∧ taskPhases <$> runMoves [runIndex 0 0; runIndex 0 1; recvErr 0 0; leaveLoop]
                            (startRun (withAvoidBuildIndex Sample.twoBadFiles))
    = Some [[("/specs/a.yaml", blockedOnIndexChan);
             ("/specs/b.yaml", blockedOnErrChan)]]
  ∧ (λ call, (returned call, indexedFiles (rolodexAfter call)))
      <$> IndexTheRolodex [runIndex 0 1; recvErr 0 1; leaveLoop] 5 Sample.goodAndBad
    = Some (Some (joinError [Sample.unsupportedSpec]),
            [("/specs/good.yaml", false); ("/specs/bad.yaml", false)])
  ∧ (λ st, (indexBuildQueue st, taskPhases st))
      <$> runMoves [runIndex 0 1; recvErr 0 1; leaveLoop]
                   (startRun (withAvoidBuildIndex Sample.goodAndBad))
    = Some ([], [[("/specs/good.yaml", notStarted);
                  ("/specs/bad.yaml", blockedOnIndexChan)]]).
Proof. split_and!; vm_compute; reflexivity. Qed.
End IndexExamples.

(** ** Instances of the properties that carry a hypothesis *)
Section Witnesses.
#[local] Existing Instance Sample.types.
#[local] Existing Instance Sample.ops.

Lemma Index_built_at_most_once_witness :
  Forall (λ out, out_err out = None ∧ parsed out = [])
         (IndexSeq
            (out_file (Index (Sample.fileWith "/specs/good.yaml" Sample.validDoc)
                             Sample.someConfig))
            [Sample.someConfig; Sample.someConfig]).
Proof.
  pose proof (Index_built_at_most_once
                (Sample.fileWith "/specs/good.yaml" Sample.validDoc)
                Sample.someConfig [Sample.someConfig; Sample.someConfig]) as Hthm.
  cbv zeta in Hthm. destruct Hthm as (_ & _ & _ & Hlater).
  - vm_compute. reflexivity.
  - eapply Forall_impl; [exact Hlater|]. by intros out (_ & ? & _ & ?).
Defined.

Lemma FindMappingValue_spec_witness :
  is_Some (FindMappingValue Sample.petDiscriminator
             (map_to_list (Mapping Sample.petDiscriminator)) "dog").
Proof.
  destruct (FindMappingValue_spec Sample.petDiscriminator
              (map_to_list (Mapping Sample.petDiscriminator)) "dog")
    as (_ & Hsome & _).
  - apply rangeOrder_refl.
  - apply Hsome. exists Sample.dogKey, Sample.dogValue.
    split; [vm_compute|]; reflexivity.
Defined.
End Witnesses.

(** * Further properties of the rolodex *)

(** ** [Open]: what is returned and what is looked up *)
Section OpenMore.
Context `{IndexOps}.

Lemma firstFound_Some (location : string) (order : list (string * FS)) (lf : LocalFile) :
  firstFound location order = Some lf →
  ∃ k v, (k, v) ∈ order ∧ (openRoot location k v).1 = Found lf.
Proof.
  induction order as [|[k v] rest IH]; cbn [firstFound fst snd]; [done|].
  destruct ((openRoot location k v).1) as [lf'|err|] eqn:Hroot.
  - intros [= ->]. exists k, v. split; [left|done].
  - intros (k' & v' & Hin & Hfound)%IH. exists k', v'. split; [by right|done].
  - intros (k' & v' & Hin & Hfound)%IH. exists k', v'. split; [by right|done].
Qed.

Lemma firstFound_None (location : string) (order : list (string * FS)) :
  firstFound location order = None ↔
  ∀ root, root ∈ order → yields location root = false.
Proof.
  unfold yields.
  induction order as [|root rest IH]; cbn [firstFound].
  - split; [|done]. intros _ root' Hin. by apply elem_of_nil in Hin.
  - destruct ((openRoot location root.1 root.2).1) as [lf|err|] eqn:Hroot.
    + split; [done|]. intros Hall. specialize (Hall root). rewrite Hroot in Hall.
      discriminate Hall. left.
    + rewrite IH. split.
      * intros Hall root' [->|Hin]%elem_of_cons; [by rewrite Hroot|by apply Hall].
      * intros Hall root' Hin. apply Hall. by right.
    + rewrite IH. split.
      * intros Hall root' [->|Hin]%elem_of_cons; [by rewrite Hroot|by apply Hall].
      * intros Hall root' Hin. apply Hall. by right.
Qed.

(** X1: whatever the order of the range, [Open] returns a file exactly
    when at least one registered root yields a file for the location. *)
Theorem Open_file_iff_some_root_yields (self : RolodexPtr) (r : Rolodex)
    (order : list (string * FS)) (location : string) :
  rangeOrder (localFS r) order →
  (is_Some (Open self order location).1 ↔
   ∃ k v, localFS r !! k = Some v ∧ yields location (k, v) = true).
Proof.
  intros Horder. rewrite Open_unfold. cbn [fst]. rewrite fmap_is_Some.
  split.
  - intros [lf (k & v & Hin & Hfound)%firstFound_Some]. exists k, v. split.
    + by apply (rangeOrder_elem _ _ _ _ Horder).
    + unfold yields. cbn [fst snd]. by rewrite Hfound.
  - intros (k & v & Hkv & Hyes).
    destruct (firstFound location order) as [lf|] eqn:Hfirst; [by eexists|].
    rewrite firstFound_None in Hfirst.
    rewrite Hfirst in Hyes; [done|]. by apply (rangeOrder_elem _ _ _ _ Horder).
Qed.

Lemma takeFile_Found_foreign (fileLookup : string) (content : Result bytes)
    (info : Result Time) (lf : LocalFile) :
  takeFile fileLookup (foreignFile content info) = Found lf →
  lf_data lf ≠ [] ∧ content = Ok (lf_data lf) ∧ lf_fullPath lf = fileLookup
  ∧ lf_filename lf = filepath_Base fileLookup
  ∧ lf_extension lf = ExtractFileType fileLookup.
Proof.
  cbn [takeFile]. destruct content as [data|rErr]; [|done].
  destruct info as [modTime|sErr]; [|done].
  destruct data as [|b data]; [done|]. cbn. by intros [= <-].
Qed.

(** X2: a file that [Open] returns is a fresh [rolodexFile] of this
    rolodex around a local file: it has no index and no remote file, its
    location is the full path of the local file, and the location asked
    for is not a URL.  That local file comes from a registered root; when
    the root is not a native filesystem it holds the non-empty content
    that was read, and its full path is the name joined against the root
    (the location itself when absolute), also when the content was
    obtained by the second lookup, under the location as supplied. *)
Theorem Open_result_shape (self : RolodexPtr) (r : Rolodex)
    (order : list (string * FS)) (loc : string) (rf : rolodexFile) :
  rangeOrder (localFS r) order →
  (Open self order loc).1 = Some rf →
  rolodex rf = Some self ∧ index rf = None ∧ remoteFile rf = None
  ∧ isUrl loc = false
  ∧ ∃ lf k v,
      localFile rf = Some lf
      ∧ location rf = lf_fullPath lf
      ∧ GetFullPath rf = lf_fullPath lf
      ∧ localFS r !! k = Some v
      ∧ ∃ f, (openBoth v (fileLookupOf k loc) loc).1 = Ok f
             ∧ match f with
               | nativeFile inner => inner = Some lf
               | foreignFile content _ =>
                 content = Ok (lf_data lf) ∧ lf_data lf ≠ []
                 ∧ lf_fullPath lf = fileLookupOf k loc
               end.
Proof.
  intros Horder. rewrite Open_unfold. cbn [fst].
  destruct (firstFound loc order) as [lf|] eqn:Hfirst; [|done].
  intros [= <-]. cbn [wrapLocal rolodex index remoteFile localFile location].
  apply firstFound_Some in Hfirst as (k & v & Hin & Hfound).
  apply (rangeOrder_elem _ _ _ _ Horder) in Hin.
  unfold openRoot in Hfound.
  destruct (isUrl loc) eqn:Hurl; [done|].
  split_and!; try done.
  exists lf, k, v. split_and!; try done.
  destruct (openBoth v (fileLookupOf k loc) loc) as [[f|err] names];
    [|done].
  cbn [fst] in Hfound |- *. exists f. split; [done|].
  destruct f as [[inner|]|content info]; cbn [takeFile] in Hfound.
  - by injection Hfound as ->.
  - done.
  - apply takeFile_Found_foreign in Hfound as (? & ? & ? & _). done.
Qed.






End OpenMore.

(** ** Registration and [Index]: edge behaviour *)
Section RegistrationMore.
Context `{IndexOps}.

(** X4: two base directories with the same absolute form share one entry
    of [localFS]: the later registration silently replaces the earlier
    filesystem, and the number of roots does not grow. *)
Theorem AddLocalFS_same_root_replaces (dirA dirB : string) (fsA fsB : FS) (r : Rolodex) :
  filepath_Abs dirA = filepath_Abs dirB →
  AddLocalFS dirB fsB (AddLocalFS dirA fsA r) = AddLocalFS dirB fsB r
  ∧ localFS (AddLocalFS dirB fsB (AddLocalFS dirA fsA r)) !! filepath_Abs dirA = Some fsB
  ∧ size (localFS (AddLocalFS dirB fsB (AddLocalFS dirA fsA r)))
    = size (localFS (AddLocalFS dirA fsA r)).
Proof.
  intros Habs. unfold AddLocalFS.
  cbn [localFS remoteFS indexed indexConfig indexingDuration].
  rewrite Habs, insert_insert_eq. split_and!; [done|apply lookup_insert_eq|].
  destruct (localFS r !! filepath_Abs dirB) as [v|] eqn:Hold.
  - by rewrite !map_size_insert_Some.
  - by rewrite !map_size_insert_None.
Qed.

(** X6: an [Index] call that fails caches nothing and changes nothing:
    the file and the configuration are as before, no index is returned,
    the error is the one the parser gave for the content of the file, and
    the next call parses that content again. *)
Theorem Index_failure_changes_nothing (rf : rolodexFile) (config config' : SpecIndexConfig)
    (err : error) :
  out_err (Index rf config) = Some err →
  out_file (Index rf config) = rf
  ∧ out_config (Index rf config) = config
  ∧ out_index (Index rf config) = None
  ∧ ExtractSpecInfo (contentOf rf) = Err err
  ∧ Index (out_file (Index rf config)) config'
    = mkIndexOutcome rf config' None (Some err) [contentOf rf].
Proof.
  intros Herr.
  assert (Hnone : index rf = None).
  { destruct (index rf) as [idx|] eqn:Hidx; [|done].
    by rewrite (Index_cached _ _ _ Hidx) in Herr. }
  assert (Hparse : ExtractSpecInfo (contentOf rf) = Err err).
  { revert Herr. unfold Index, contentOf. rewrite Hnone.
    destruct (remoteFile rf), (localFile rf);
      destruct (ExtractSpecInfo _); by intros [= ->]. }
  assert (Hcall : ∀ c, Index rf c = mkIndexOutcome rf c None (Some err) [contentOf rf]).
  { intros c. revert Hparse. unfold Index, contentOf. rewrite Hnone.
    destruct (remoteFile rf), (localFile rf); by intros ->. }
  rewrite !Hcall. by cbn.
Qed.

(** X7: after any call of [Index], successful or not, [GetIndex] on the
    file returns exactly the index that call returned. *)
Theorem GetIndex_after_Index (rf : rolodexFile) (config : SpecIndexConfig) :
  GetIndex (out_file (Index rf config)) = out_index (Index rf config).
Proof.
  unfold GetIndex, Index. destruct (index rf) as [idx|] eqn:Hidx; [done|].
  by destruct (ExtractSpecInfo _).
Qed.

(** X8: for a file that has both a local and a remote side, [Index]
    parses the remote content, whereas [GetContent] (like every other
    accessor) answers with the local content. *)
Theorem Index_parses_remote_side (rf : rolodexFile) (config : SpecIndexConfig)
    (lf : LocalFile) (rm : RemoteFile) :
  localFile rf = Some lf →
  remoteFile rf = Some rm →
  index rf = None →
  parsed (Index rf config) = [rm_data rm]
  ∧ GetContent rf = String.string_of_list_byte (lf_data lf).
Proof.
  intros Hlocal Hremote Hidx. unfold Index, GetContent.
  rewrite Hidx, Hlocal, Hremote. by destruct (ExtractSpecInfo _).
Qed.
End RegistrationMore.

Section OpenMoreWitnesses.
#[local] Existing Instance Sample.types.
#[local] Existing Instance Sample.ops.

Lemma Open_file_iff_some_root_yields_witness :
  is_Some (Open 1%positive (map_to_list (localFS Sample.onlySecond)) "pet.yaml").1.
Proof.
  apply (Open_file_iff_some_root_yields 1%positive Sample.onlySecond).
  - apply rangeOrder_refl.
  - exists "/b", Sample.fsB. split; vm_compute; reflexivity.
Defined.

Lemma Open_result_shape_witness :
  index (wrapLocal 1%positive Sample.petOfB) = None
  ∧ isUrl "pet.yaml" = false.
Proof.
  destruct (Open_result_shape 1%positive Sample.onlySecond
              (map_to_list (localFS Sample.onlySecond)) "pet.yaml"
              (wrapLocal 1%positive Sample.petOfB))
    as (_ & Hidx & _ & Hurl & _).
  - apply rangeOrder_refl.
  - vm_compute. reflexivity.
  - split; assumption.
Defined.


Lemma AddLocalFS_same_root_replaces_witness :
  AddLocalFS "/work/specs" Sample.fsB (AddLocalFS "specs" Sample.fsA Sample.emptyRolodex)
  = AddLocalFS "/work/specs" Sample.fsB Sample.emptyRolodex.
Proof.
  apply (AddLocalFS_same_root_replaces "specs" "/work/specs"). reflexivity.
Defined.

Lemma AddLocalFS_commute_witness :
  AddLocalFS "/b" Sample.fsB (AddLocalFS "/a" Sample.fsA Sample.emptyRolodex)
  = AddLocalFS "/a" Sample.fsA (AddLocalFS "/b" Sample.fsB Sample.emptyRolodex).
Proof. apply AddLocalFS_commute. vm_compute. discriminate. Defined.

Lemma Index_failure_changes_nothing_witness :
  out_file (Index (Sample.fileWith "/specs/bad.yaml" Sample.invalidDoc) Sample.someConfig)
  = Sample.fileWith "/specs/bad.yaml" Sample.invalidDoc.
Proof.
  apply (Index_failure_changes_nothing _ _ Sample.someConfig Sample.unsupportedSpec).
  vm_compute. reflexivity.
Defined.

Lemma Index_parses_remote_side_witness :
  parsed (Index Cases.twoSided Sample.someConfig)
  = [String.list_byte_of_string Sample.validDoc].
Proof.
  destruct (Index_parses_remote_side Cases.twoSided Sample.someConfig
              Cases.localSide Cases.remoteSide)
    as [Hparsed _]; [reflexivity..|exact Hparsed].
Defined.
End OpenMoreWitnesses.

(** ** [IndexTheRolodex]: what every execution keeps *)
Section RunInvariants.
Context `{IndexOps}.

Lemma runMoves_preserve (P : IndexState → Prop) :
  (∀ m st st', step m st = Some st' → P st → P st') →
  ∀ sched st st', runMoves sched st = Some st' → P st → P st'.
Proof.
  intros Hstep sched. induction sched as [|m rest IH]; intros st st'; cbn [runMoves].
  - by intros [= ->].
  - destruct (step m st) as [st1|] eqn:Hm; [|done].
    intros Hrun HP. apply (IH st1); [done|]. by apply (Hstep m st).
Qed.


Lemma setFile_waitingRoots (i j : nat) (st : IndexState) (t' : FileTask) :
  waitingRoots (setFile i j t' st) = waitingRoots (roots st).
Proof.
  unfold setFile, waitingRoots.
  destruct (roots st !! i) as [root|] eqn:Hi; [|done].
  pose proof (sum_list_insert (λ t, if isRootWaiting t then 1 else 0)%nat _ i root
                (setRootFiles (<[j := t']> (rootFiles root)) root) Hi) as Hsum.
  cbn beta in Hsum.
  replace (isRootWaiting (setRootFiles (<[j:=t']> (rootFiles root)) root))
    with (isRootWaiting root) in Hsum by (by destruct root).
  lia.
Qed.

Lemma step_completionsBalance (c : nat) (m : Move) (st st' : IndexState) :
  step m st = Some st' → completionsBalance c st → completionsBalance c st'.
Proof.
  unfold completionsBalance.
  destruct m as [i j|i j|i j|i|]; cbn [step]; intros Hstep.
  - destruct (getFile i j st) as [[name rf fullPath| | |]|]; try done.
    simplify_eq. cbn [indexingCompleted roots caughtErrors].
    by rewrite setFile_waitingRoots.
  - destruct (getFile i j st) as [[|name rf err idx| |]|]; try done.
    destruct (selecting st); simplify_eq.
    cbn [indexingCompleted roots caughtErrors].
    rewrite setFile_waitingRoots, length_app. cbn [length]. lia.
  - destruct (getFile i j st) as [[| |name rf idx|]|]; try done.
    destruct (selecting st); simplify_eq.
    cbn [indexingCompleted roots caughtErrors].
    by rewrite setFile_waitingRoots.
  - destruct (roots st !! i) as [[remote key files|]|] eqn:Hi; try done.
    destruct (selecting st && forallb isFileDone files); simplify_eq.
    cbn [indexingCompleted roots caughtErrors].
    pose proof (sum_list_insert (λ t, if isRootWaiting t then 1 else 0)%nat _ i _
                  (rootExited remote key files) Hi) as Hsum.
    unfold waitingRoots. cbn [isRootWaiting] in Hsum. lia.
  - destruct (negb (loopLeft st) && _); simplify_eq. done.
Qed.

Lemma step_leftWhenCounted (m : Move) (st st' : IndexState) :
  step m st = Some st' → leftWhenCounted st → leftWhenCounted st'.
Proof.
  unfold leftWhenCounted.
  destruct m as [i j|i j|i j|i|]; cbn [step]; unfold selecting; intros Hstep.
  - destruct (getFile i j st) as [[name rf fullPath| | |]|]; try done.
    by simplify_eq.
  - destruct (getFile i j st) as [[|name rf err idx| |]|]; try done.
    destruct (loopLeft st) eqn:Hleft; cbn [negb andb] in Hstep; [done|].
    destruct (_ <? _)%nat; simplify_eq. cbn. congruence.
  - destruct (getFile i j st) as [[| |name rf idx|]|]; try done.
    destruct (loopLeft st) eqn:Hleft; cbn [negb andb] in Hstep; [done|].
    destruct (_ <? _)%nat; simplify_eq. cbn. congruence.
  - destruct (roots st !! i) as [[remote key files|]|]; try done.
    destruct (loopLeft st) eqn:Hleft; cbn [negb andb] in Hstep; [done|].
    destruct (_ <? _)%nat; cbn [andb] in Hstep; [|done].
    destruct (forallb isFileDone files); simplify_eq. cbn. congruence.
  - destruct (loopLeft st); cbn [negb andb] in Hstep; [done|].
    destruct (indexingCompleted st <? totalToIndex st)%nat eqn:Hlt;
      cbn [negb] in Hstep; simplify_eq.
    cbn. intros _. apply Nat.ltb_ge in Hlt. lia.
Qed.

Lemma spawned_roots_count (remote : bool) (entries : list (string * FS)) :
  (waitingRoots (spawnRoot remote <$> entries)
   + sum_list ((λ e : string * FS, if isLocalFS e.2 then 0 else 1) <$> entries)
   = length entries)%nat.
Proof.
  unfold waitingRoots.
  induction entries as [|e rest IH]; [done|].
  rewrite !fmap_cons. cbn [sum_list_with length id].
  unfold spawnRoot at 1, isLocalFS at 1.
  destruct (asLocalFS e.2); cbn [isRootWaiting]; lia.
Qed.

Lemma sum_list_fmap_app {A : Type} (g : A → nat) (l k : list A) :
  sum_list (g <$> (l ++ k)) = (sum_list (g <$> l) + sum_list (g <$> k))%nat.
Proof. by rewrite fmap_app, sum_list_with_app. Qed.

Lemma startRun_counts (r : Rolodex) :
  (waitingRoots (roots (startRun r)) + foreignRoots r
   = totalToIndex (startRun r))%nat.
Proof.
  unfold startRun, foreignRoots, allRoots, waitingRoots. cbn [roots totalToIndex].
  rewrite !sum_list_fmap_app.
  pose proof (spawned_roots_count false (map_to_list (localFS r))) as Hl.
  pose proof (spawned_roots_count true (map_to_list (remoteFS r))) as Hr.
  rewrite !length_map_to_list in Hl, Hr. unfold waitingRoots in Hl, Hr. lia.
Qed.

Lemma withAvoidBuildIndex_roots (r : Rolodex) :
  allRoots (withAvoidBuildIndex r) = allRoots r.
Proof. done. Qed.

(** What holds in the state a call returns from. *)
Lemma returned_state (sched : list Move) (r : Rolodex) (st : IndexState) :
  runMoves sched (startRun (withAvoidBuildIndex r)) = Some st →
  loopLeft st = true →
  (foreignRoots r + waitingRoots (roots st) ≤ length (caughtErrors st))%nat.
Proof.
  intros Hrun Hleft.
  pose proof (startRun_counts (withAvoidBuildIndex r)) as Hstart.
  set (st0 := startRun (withAvoidBuildIndex r)) in *.
  assert (Hbal : completionsBalance (waitingRoots (roots st0)) st).
  { apply (runMoves_preserve _ (step_completionsBalance _) sched st0); [done|].
    unfold completionsBalance. subst st0. cbn. lia. }
  assert (Hcount : leftWhenCounted st).
  { apply (runMoves_preserve _ step_leftWhenCounted sched st0); [done|].
    unfold leftWhenCounted. by subst st0. }
  assert (Htot : totalToIndex st = totalToIndex st0).
  { apply (runMoves_gatherBound sched st0); [done|].
    unfold gatherBound. subst st0. cbn. lia. }
  specialize (Hcount Hleft). unfold completionsBalance in Hbal.
  unfold foreignRoots in *. rewrite withAvoidBuildIndex_roots in Hstart. lia.
Qed.

(** X9: a call that returns has caught at least one error for every
    registered filesystem that is not a [LocalFS]: such a filesystem
    never reports on [doneChan], so without errors the call never
    returns. *)
Theorem IndexTheRolodex_needs_an_error_per_foreign_root (sched : list Move)
    (elapsed : Z) (r : Rolodex) (call : IndexCall) :
  indexed r = false →
  IndexTheRolodex sched elapsed r = Some call →
  (foreignRoots r ≤ countErrors (returned call))%nat.
Proof.
  intros Hflag. unfold IndexTheRolodex. rewrite Hflag.
  destruct (runMoves _ _) as [st|] eqn:Hrun; [|done].
  destruct (loopLeft st) eqn:Hleft; [|done]. intros [= <-].
  cbn [returned]. rewrite countErrors_Join.
  pose proof (returned_state sched r st Hrun Hleft). lia.
Qed.
End RunInvariants.

Section RunInvariantsMore.
Context `{IndexOps}.

Lemma setFile_Forall (P : FileTask → Prop) (i j : nat) (st : IndexState) (t' : FileTask) :
  Forall (λ root, Forall P (rootFiles root)) (roots st) →
  P t' →
  Forall (λ root, Forall P (rootFiles root)) (setFile i j t' st).
Proof.
  intros Hall Ht'. unfold setFile.
  destruct (roots st !! i) as [root|] eqn:Hi; [|done].
  apply Forall_insert; [done|].
  replace (rootFiles (setRootFiles (<[j:=t']> (rootFiles root)) root))
    with (<[j:=t']> (rootFiles root)) by (by destruct root).
  apply Forall_insert; [|done].
  by apply (Forall_lookup_1 _ _ _ _ Hall Hi).
Qed.

Lemma settled_not_done (i j : nat) (st : IndexState) (t : FileTask) :
  settledRoots st → getFile i j st = Some t → isFileDone t = false →
  ∃ root, roots st !! i = Some root ∧ isRootWaiting root = true.
Proof.
  intros Hsettled (root & Hi & Hj)%getFile_Some Hnot. exists root. split; [done|].
  destruct (isRootWaiting root) eqn:Hw; [done|].
  pose proof (Forall_lookup_1 _ _ _ _ Hsettled Hi Hw) as Hdone.
  rewrite forallb_forall in Hdone. specialize (Hdone t).
  rewrite Hdone in Hnot; [done|]. apply list_elem_of_In.
  by apply list_elem_of_lookup_2 in Hj.
Qed.

Lemma setFile_settled (i j : nat) (st : IndexState) (t t' : FileTask) :
  settledRoots st → getFile i j st = Some t → isFileDone t = false →
  Forall (λ root, isRootWaiting root = false →
                  forallb isFileDone (rootFiles root) = true)
         (setFile i j t' st).
Proof.
  intros Hsettled Hget Hnot.
  destruct (settled_not_done i j st t Hsettled Hget Hnot) as (root & Hi & Hw).
  unfold setFile. rewrite Hi. apply Forall_insert; [done|].
  destruct root; [|done]. cbn. done.
Qed.

Lemma step_settledRoots (m : Move) (st st' : IndexState) :
  step m st = Some st' → settledRoots st → settledRoots st'.
Proof.
  intros Hstep Hsettled. revert Hstep. unfold settledRoots.
  destruct m as [i j|i j|i j|i|]; cbn [step]; intros Hstep.
  - destruct (getFile i j st) as [[name rf fullPath| | |]|] eqn:Hget; try done.
    simplify_eq. cbn [roots]. by apply (setFile_settled i j st _ _ Hsettled Hget).
  - destruct (getFile i j st) as [[|name rf err idx| |]|] eqn:Hget; try done.
    destruct (selecting st); simplify_eq. cbn [roots].
    by apply (setFile_settled i j st _ _ Hsettled Hget).
  - destruct (getFile i j st) as [[| |name rf idx|]|] eqn:Hget; try done.
    destruct (selecting st); simplify_eq. cbn [roots].
    by apply (setFile_settled i j st _ _ Hsettled Hget).
  - destruct (roots st !! i) as [[remote key files|]|] eqn:Hi; try done.
    destruct (selecting st); cbn [andb] in Hstep; [|done].
    destruct (forallb isFileDone files) eqn:Hdone; simplify_eq. cbn [roots].
    apply Forall_insert; [done|]. by intros _.
  - destruct (negb (loopLeft st) && _); simplify_eq. done.
Qed.

Lemma step_indexedWhenClean (m : Move) (st st' : IndexState) :
  step m st = Some st' → indexedWhenClean st → indexedWhenClean st'.
Proof.
  unfold indexedWhenClean.
  destruct m as [i j|i j|i j|i|]; cbn [step]; intros Hstep Hinv.
  - destruct (getFile i j st) as [[name rf fullPath| | |]|] eqn:Hget; try done.
    simplify_eq. cbn [roots caughtErrors]. intros Hclean.
    apply setFile_Forall; [by apply Hinv|].
    destruct (out_err (Index rf _)) as [err|] eqn:Herr; [done|].
    cbn [taskIndexed].
    destruct (Index_success_caches _ _ Herr) as (idx & _ & ->). by eexists.
  - destruct (getFile i j st) as [[|name rf err idx| |]|]; try done.
    destruct (selecting st); simplify_eq. cbn [caughtErrors].
    intros Hclean. by destruct (caughtErrors st).
  - destruct (getFile i j st) as [[| |name rf idx|]|] eqn:Hget; try done.
    destruct (selecting st); simplify_eq. cbn [roots caughtErrors]. intros Hclean.
    apply setFile_Forall; [by apply Hinv|]. cbn [taskIndexed].
    apply getFile_Some in Hget as (root & Hi & Hj).
    pose proof (Forall_lookup_1 _ _ _ _ (Hinv Hclean) Hi) as Hroot.
    apply (Forall_lookup_1 _ _ _ _ Hroot Hj).
  - destruct (roots st !! i) as [[remote key files|]|] eqn:Hi; try done.
    destruct (selecting st && forallb isFileDone files); simplify_eq.
    cbn [roots caughtErrors]. intros Hclean.
    apply Forall_insert; [by apply Hinv|].
    apply (Forall_lookup_1 _ _ _ _ (Hinv Hclean) Hi).
  - destruct (negb (loopLeft st) && _); simplify_eq. done.
Qed.

Lemma spawned_tasks_ready (remote : bool) (e : string * FS) :
  Forall (λ t, isFileDone t = false ∧ taskIndexed t) (rootFiles (spawnRoot remote e)).
Proof.
  unfold spawnRoot. destruct (asLocalFS e.2) as [files|]; cbn [rootFiles]; [|done].
  induction (map_to_list files) as [|[name [rf|path]] rest IH]; cbn; [done| |done].
  by constructor.
Qed.

Lemma startRun_settled (r : Rolodex) : settledRoots (startRun r).
Proof.
  unfold settledRoots, startRun. cbn [roots].
  apply Forall_app. split; apply Forall_fmap, Forall_true; intros e;
    (unfold compose, spawnRoot; destruct (asLocalFS e.2); by cbn).
Qed.

Lemma startRun_indexedWhenClean (r : Rolodex) : indexedWhenClean (startRun r).
Proof.
  intros _. unfold startRun. cbn [roots].
  apply Forall_app. split; apply Forall_fmap, Forall_true; intros e;
    unfold compose;
    (eapply Forall_impl; [apply spawned_tasks_ready|]; by intros t [_ ?]).
Qed.

Lemma waitingRoots_zero (roots : list RootTask) :
  waitingRoots roots = 0%nat → Forall (λ root, isRootWaiting root = false) roots.
Proof.
  unfold waitingRoots. induction roots as [|root rest IH]; [done|].
  rewrite fmap_cons. cbn [sum_list_with id].
  destruct (isRootWaiting root) eqn:Hw; [lia|].
  intros Hrest. constructor; [done|]. apply IH. lia.
Qed.

(** X10: when the call returns nil, every registered filesystem is a
    [LocalFS], every root goroutine has sent on [doneChan] and returned,
    and every file goroutine has finished with its file holding an
    index. *)
Theorem IndexTheRolodex_nil_means_all_indexed (sched : list Move) (elapsed : Z)
    (r : Rolodex) (call : IndexCall) :
  indexed r = false →
  IndexTheRolodex sched elapsed r = Some call →
  returned call = None →
  foreignRoots r = 0%nat
  ∧ ∃ st, runMoves sched (startRun (withAvoidBuildIndex r)) = Some st
          ∧ rolodexAfter call = finishRun elapsed st (withAvoidBuildIndex r)
          ∧ allFinished st.
Proof.
  intros Hflag. unfold IndexTheRolodex. rewrite Hflag.
  destruct (runMoves _ _) as [st|] eqn:Hrun; [|done].
  destruct (loopLeft st) eqn:Hleft; [|done]. intros [= <-].
  cbn [returned rolodexAfter]. intros Hnil%errors_Join_nil.
  pose proof (returned_state sched r st Hrun Hleft) as Hcount.
  rewrite Hnil in Hcount. cbn [length] in Hcount.
  split; [lia|]. exists st. split_and!; [done..|].
  assert (Hsettled : settledRoots st).
  { apply (runMoves_preserve _ step_settledRoots sched _ _ Hrun), startRun_settled. }
  assert (Hclean : indexedWhenClean st).
  { apply (runMoves_preserve _ step_indexedWhenClean sched _ _ Hrun),
      startRun_indexedWhenClean. }
  assert (Hnone : Forall (λ root, isRootWaiting root = false) (roots st))
    by (apply waitingRoots_zero; lia).
  specialize (Hclean Hnil). unfold allFinished, settledRoots in *.
  rewrite Forall_forall in *. intros root Hroot.
  split; [by apply Hnone|].
  specialize (Hsettled root Hroot (Hnone root Hroot)).
  specialize (Hclean root Hroot). rewrite forallb_forall in Hsettled.
  rewrite Forall_forall in *. intros t Ht.
  assert (Hdone : isFileDone t = true) by (by apply Hsettled, list_elem_of_In).
  split; [done|]. specialize (Hclean t Ht). by destruct t.
Qed.
End RunInvariantsMore.

Section RunBudgets.
Context `{IndexOps}.



(** The goroutines started for a filesystem, counted through its files. *)
Lemma spawned_files_sum (g : FileTask → nat) (h : FileValue → nat) (remote : bool)
    (e : string * FS) :
  (∀ name rf, g (fileReady name rf (GetFullPath rf)) = h (indexableFile rf)) →
  (∀ path, h (plainFile path) = 0%nat) →
  sum_list (g <$> rootFiles (spawnRoot remote e))
  = sum_list ((λ f : string * FileValue, h f.2) <$> filesOf e.2).
Proof.
  intros Hind Hplain. unfold spawnRoot, filesOf.
  destruct (asLocalFS e.2) as [files|]; cbn [rootFiles]; [|done].
  induction (map_to_list files) as [|[name [rf|path]] rest IH]; [done|..].
  - cbn [omap list_omap spawnFile]. rewrite !fmap_cons. cbn [sum_list_with id snd].
    by rewrite Hind, IH.
  - cbn [omap list_omap spawnFile]. rewrite !fmap_cons. cbn [sum_list_with id snd].
    by rewrite Hplain, IH.
Qed.

Lemma startRun_sumTasks (g : FileTask → nat) (h : FileValue → nat) (r : Rolodex) :
  (∀ name rf, g (fileReady name rf (GetFullPath rf)) = h (indexableFile rf)) →
  (∀ path, h (plainFile path) = 0%nat) →
  sumTasks g (roots (startRun r)) = countFiles h r.
Proof.
  intros Hind Hplain. unfold sumTasks, countFiles, startRun, allRoots. cbn [roots].
  rewrite !fmap_app, !sum_list_with_app, <- !list_fmap_compose.
  f_equal; f_equal; apply list_fmap_ext; intros i e _; unfold compose;
    by apply spawned_files_sum.
Qed.


Lemma startRun_weight (r : Rolodex) :
  (weight (startRun r)
   ≤ 1 + size (localFS r) + size (remoteFS r) + 3 * indexableCount r)%nat.
Proof.
  unfold weight. cbn [loopLeft startRun].
  assert (Hroots : (sum_list (rootWeight <$> roots (startRun r))
                    ≤ length (roots (startRun r))
                      + sumTasks fileWeight (roots (startRun r)))%nat).
  { unfold sumTasks. induction (roots (startRun r)) as [|root rest IH]; [done|].
    rewrite !fmap_cons. cbn [sum_list_with id length].
    destruct root; cbn [rootWeight rootFiles]; lia. }
  rewrite (startRun_sumTasks fileWeight
             (λ f, match f with indexableFile _ => 3 | plainFile _ => 0 end)%nat)
    in Hroots; [|done..].
  assert (Hcount : countFiles (λ f, match f with indexableFile _ => 3 | plainFile _ => 0 end)%nat r
                   = (3 * indexableCount r)%nat).
  { unfold indexableCount, countFiles.
    induction (allRoots r) as [|e rest IH]; [done|].
    rewrite !fmap_cons. cbn [sum_list_with id]. rewrite IH.
    assert (sum_list ((λ f : string * FileValue,
                         match f.2 with indexableFile _ => 3 | plainFile _ => 0 end)
                      <$> filesOf e.2)
            = 3 * sum_list ((λ f : string * FileValue,
                               match f.2 with indexableFile _ => 1 | plainFile _ => 0 end)
                            <$> filesOf e.2))%nat as ->; [|lia].
    induction (filesOf e.2) as [|[name [rf|path]] files IHf]; [done|..];
      rewrite !fmap_cons; cbn [sum_list_with id snd]; lia. }
  rewrite Hcount in Hroots.
  assert (Hlen : length (roots (startRun r)) = (size (localFS r) + size (remoteFS r))%nat).
  { unfold startRun. cbn [roots].
    by rewrite length_app, !length_fmap, !length_map_to_list. }
  cbn [roots startRun] in *. lia.
Qed.

(** X12: no execution of the goroutines runs forever: with [n]
    registered filesystems and [f] indexable files, an execution has at
    most [1 + n + 3 f] moves. *)
Theorem IndexTheRolodex_moves_bounded (sched : list Move) (r : Rolodex) :
  is_Some (runMoves sched (startRun (withAvoidBuildIndex r))) →
  (length sched
   ≤ 1 + size (localFS r) + size (remoteFS r) + 3 * indexableCount r)%nat.
Proof.
  intros [st Hrun]. apply runMoves_weight in Hrun.
  pose proof (startRun_weight (withAvoidBuildIndex r)) as Hw.
  change (indexableCount (withAvoidBuildIndex r)) with (indexableCount r) in Hw.
  cbn [localFS remoteFS withAvoidBuildIndex] in Hw. lia.
Qed.
End RunBudgets.

Section RunWitnesses.
#[local] Existing Instance Sample.types.
#[local] Existing Instance Sample.ops.

Lemma IndexTheRolodex_needs_an_error_per_foreign_root_witness :
  ∃ call,
    IndexTheRolodex [runIndex 0 0; recvErr 0 0; recvIdx 0 0; recvDone 0; leaveLoop]
                    5 Cases.mixedRoots = Some call
    ∧ (foreignRoots Cases.mixedRoots ≤ countErrors (returned call))%nat.
Proof.
  destruct (IndexTheRolodex [runIndex 0 0; recvErr 0 0; recvIdx 0 0; recvDone 0; leaveLoop]
                            5 Cases.mixedRoots) as [call|] eqn:Hcall.
  - exists call. split; [reflexivity|].
    apply (IndexTheRolodex_needs_an_error_per_foreign_root _ 5 Cases.mixedRoots call eq_refl Hcall).
  - vm_compute in Hcall. discriminate Hcall.
Defined.

Lemma IndexTheRolodex_nil_means_all_indexed_witness :
  ∃ call,
    IndexTheRolodex [runIndex 0 0; recvIdx 0 0; runIndex 0 1; recvIdx 0 1;
                     recvDone 0; leaveLoop] 5 Cases.twoGoodFiles = Some call
    ∧ returned call = None
    ∧ foreignRoots Cases.twoGoodFiles = 0%nat.
Proof.
  destruct (IndexTheRolodex [runIndex 0 0; recvIdx 0 0; runIndex 0 1; recvIdx 0 1;
                             recvDone 0; leaveLoop] 5 Cases.twoGoodFiles)
    as [call|] eqn:Hcall.
  - assert (Hnil : returned call = None).
    { vm_compute in Hcall. injection Hcall as <-. reflexivity. }
    exists call. split; [reflexivity|]. split; [exact Hnil|].
    apply (IndexTheRolodex_nil_means_all_indexed _ 5 Cases.twoGoodFiles call eq_refl Hcall Hnil).
  - vm_compute in Hcall. discriminate Hcall.
Defined.


Lemma IndexTheRolodex_moves_bounded_witness :
  (length [runIndex 0 0; recvIdx 0 0; runIndex 0 1; recvIdx 0 1; recvDone 0; leaveLoop]
   ≤ 1 + size (localFS Cases.twoGoodFiles) + size (remoteFS Cases.twoGoodFiles)
     + 3 * indexableCount Cases.twoGoodFiles)%nat.
Proof.
  apply IndexTheRolodex_moves_bounded.
  destruct (runMoves _ _) as [st|] eqn:Hrun; [by eexists|].
  vm_compute in Hrun. discriminate Hrun.
Defined.

Lemma IndexTheRolodex_errors_at_most_roots_witness :
  ∃ call,
    IndexTheRolodex [runIndex 0 0; runIndex 0 1; recvErr 0 0; leaveLoop]
                    5 Sample.twoBadFiles = Some call
    ∧ (countErrors (returned call)
       ≤ size (localFS Sample.twoBadFiles) + size (remoteFS Sample.twoBadFiles))%nat.
Proof.
  destruct (IndexTheRolodex [runIndex 0 0; runIndex 0 1; recvErr 0 0; leaveLoop]
                            5 Sample.twoBadFiles) as [call|] eqn:Hcall.
  - exists call. split; [reflexivity|].
    apply (IndexTheRolodex_errors_at_most_roots _ _ _ _ Hcall).
  - vm_compute in Hcall. discriminate Hcall.
Defined.
End RunWitnesses.

(** * The resolver *)

(** ** [isInfiniteCircularDependency] *)
Section IcdFacts.
Context (search : string → option Reference).
Context (orderOf : nat → list string → list string).
Context (orderOf_perm : ∀ n keys, orderOf n keys ≡ₚ keys).

Lemma range_keys (n : nat) (ref : Reference) (k : string) :
  k ∈ orderOf n (map_to_list (RequiredRefProperties ref)).*1
  ↔ is_Some (RequiredRefProperties ref !! k).
Proof.
  rewrite orderOf_perm, list_elem_of_fmap. split.
  - intros ([k' v] & -> & Hin%elem_of_map_to_list). by exists v.
  - intros [v Hv]. exists (k, v). by rewrite elem_of_map_to_list.
Qed.

Lemma icdLoop_found
    (recurse : option Reference → gmap string bool → option Reference → nat → IcdResult)
    (ref : Reference) (initialRef : option Reference) :
  (∀ r v c b v' c',
     recurse (Some r) v (Some (initialOf ref initialRef)) c = icdReturn b v' c' →
     (b = true ↔ reaches search (ref_Definition (initialOf ref initialRef)) r)) →
  ∀ keys v c b v' c',
    icdLoop search recurse ref initialRef keys v c = icdReturn b v' c' →
    (b = true ↔
     ∃ k r, k ∈ keys ∧ search k = Some r
            ∧ (hitsInitial initialRef r = true
               ∨ reaches search (ref_Definition (initialOf ref initialRef)) r)).
Proof.
  intros Hrec keys. induction keys as [|k rest IH]; intros v c b v' c'; cbn [icdLoop].
  - intros [= <- _ _]. split; [done|]. intros (k & r & []%elem_of_nil & _).
  - destruct (search k) as [r|] eqn:Hk; [|done].
    fold (hitsInitial initialRef r). fold (initialOf ref initialRef).
    destruct (hitsInitial initialRef r) eqn:Hhit.
    + intros [= <- _ _]. split; [|done]. intros _. exists k, r.
      split_and!; [left|done|by left].
    + destruct (recurse _ _ _ _) as [[] v1 c1| |] eqn:Hcall; try done.
      * intros [= <- _ _]. split; [|done]. intros _. exists k, r.
        split_and!; [left|done|right]. by apply (Hrec _ _ _ _ _ _ Hcall).
      * intros Hrest. rewrite (IH _ _ _ _ _ Hrest). split.
        -- intros (k' & r' & Hin & Hk' & Hr'). exists k', r'.
           split_and!; [by right|done..].
        -- intros (k' & r' & [->|Hin]%elem_of_cons & Hk' & Hr');
             [|by exists k', r'].
           simplify_eq. destruct Hr' as [Hhit'|Hreach]; [congruence|].
           by apply (Hrec _ _ _ _ _ _ Hcall) in Hreach.
Qed.

Lemma reaches_requires (target : string) (ref : Reference) :
  reaches search target ref ↔
  ∃ r, requires search ref r ∧ (ref_Definition r = target ∨ reaches search target r).
Proof.
  split.
  - intros [ref' r Hreq Hdef|ref' r Hreq Hreach]; exists r; eauto.
  - intros (r & Hreq & [Hdef|Hreach]).
    + by apply (reaches_child search _ ref r).
    + by apply (reaches_later search _ ref r).
Qed.

(** X13: when [isInfiniteCircularDependency] returns, it returns true
    exactly when required properties lead from [ref] to a reference with
    the definition of [initialRef]; called with a nil [initialRef], exactly
    when they lead from a required property of [ref] back to the
    definition of [ref].  This holds whatever order the ranges follow. *)
Theorem isInfiniteCircularDependency_returns_reachability (fuel : nat)
    (ref : Reference) (initialRef : option Reference)
    (visited visited' : gmap string bool) (ranges ranges' : nat) (found : bool) :
  isInfiniteCircularDependency search orderOf fuel (Some ref) visited initialRef ranges = icdReturn found visited' ranges' →
  (found = true ↔
   match initialRef with
   | Some initial => reaches search (ref_Definition initial) ref
   | None => ∃ r, requires search ref r ∧ reaches search (ref_Definition ref) r
   end).
Proof.
  revert ref initialRef visited visited' ranges ranges' found.
  induction fuel as [|fuel IH];
    intros ref initialRef visited visited' ranges ranges' found; [done|].
  cbn [isInfiniteCircularDependency]. intros Hloop.
  apply icdLoop_found in Hloop.
  - rewrite Hloop. destruct initialRef as [initial|]; cbn [hitsInitial initialOf].
    + rewrite reaches_requires. split.
      * intros (k & r & Hin%range_keys & Hk & Hr). exists r. split; [by exists k|].
        destruct Hr as [Heq%String.eqb_eq|?]; [by left|by right].
      * intros (r & (k & Hin & Hk) & Hr). exists k, r.
        split_and!; [by apply range_keys|done|].
        destruct Hr as [Heq|?]; [left; by apply String.eqb_eq|by right].
    + split.
      * intros (k & r & Hin%range_keys & Hk & [?|Hr]); [done|].
        exists r. split; [by exists k|done].
      * intros (r & (k & Hin & Hk) & Hr). exists k, r.
        split_and!; [by apply range_keys|done|by right].
  - intros r v c b v' c' Hcall. by apply IH in Hcall.
Qed.
End IcdFacts.

Section IcdTermination.
Context (search : string → option Reference).
Context (orderOf : nat → list string → list string).
Context (orderOf_perm : ∀ n keys, orderOf n keys ≡ₚ keys).

Lemma icdLoop_same
    (recurse : option Reference → gmap string bool → option Reference → nat → IcdResult)
    (ref : Reference) (initialRef : option Reference) :
  (∀ r v1 v2 i c, sameButVisited (recurse r v1 i c) (recurse r v2 i c)) →
  ∀ keys v1 v2 c,
    sameButVisited (icdLoop search recurse ref initialRef keys v1 c)
                   (icdLoop search recurse ref initialRef keys v2 c).
Proof.
  intros Hrec keys. induction keys as [|k rest IH]; intros v1 v2 c; cbn [icdLoop].
  - done.
  - destruct (search k) as [r|]; [|done].
    destruct (match initialRef with Some _ => _ | None => false end); [done|].
    specialize (Hrec (Some r) (<[ref_Definition r:=true]> v1)
                  (<[ref_Definition r:=true]> v2)
                  (Some (match initialRef with Some i => i | None => ref end)) c).
    destruct (recurse _ (<[_:=_]> v1) _ _) as [[] w1 c1| |];
      destruct (recurse _ (<[_:=_]> v2) _ _) as [[] w2 c2| |];
      cbn in Hrec; try done; destruct Hrec as [? ->]; try done;
      apply IH.
Qed.

(** X14: [visitedDefinitions] is only written: two calls that differ in
    nothing but the visited definitions they start from end the same way
    and return the same boolean.  The set is never consulted to stop
    before entering a definition a second time. *)
Theorem isInfiniteCircularDependency_ignores_visited (fuel : nat)
    (ref initialRef : option Reference) (visited1 visited2 : gmap string bool)
    (ranges : nat) :
  sameButVisited
    (isInfiniteCircularDependency search orderOf fuel ref visited1 initialRef ranges)
    (isInfiniteCircularDependency search orderOf fuel ref visited2 initialRef ranges).
Proof.
  revert ref initialRef visited1 visited2 ranges.
  induction fuel as [|fuel IH]; intros ref initialRef v1 v2 c; [done|].
  cbn [isInfiniteCircularDependency]. destruct ref as [ref|]; [|done].
  apply icdLoop_same. intros r w1 w2 i c'. apply IH.
Qed.

Lemma icdLoop_diverges
    (recurse : option Reference → gmap string bool → option Reference → nat → IcdResult)
    (ref : Reference) (initialRef : option Reference) (k : string)
    (rest : list string) (r : Reference) (v : gmap string bool) (c : nat) :
  search k = Some r →
  hitsInitial initialRef r = false →
  (∀ w c', recurse (Some r) w (Some (initialOf ref initialRef)) c' = icdOutOfFuel) →
  icdLoop search recurse ref initialRef (k :: rest) v c = icdOutOfFuel.
Proof.
  intros Hk Hhit Hrec. cbn [icdLoop]. rewrite Hk.
  fold (hitsInitial initialRef r). fold (initialOf ref initialRef).
  by rewrite Hhit, Hrec.
Qed.

Lemma range_first (n : nat) (ref : Reference) :
  RequiredRefProperties ref ≠ ∅ →
  ∃ k rest,
    orderOf n (map_to_list (RequiredRefProperties ref)).*1 = k :: rest
    ∧ is_Some (RequiredRefProperties ref !! k).
Proof.
  intros Hne.
  destruct (orderOf n (map_to_list (RequiredRefProperties ref)).*1)
    as [|k rest] eqn:Hkeys.
  - pose proof (orderOf_perm n (map_to_list (RequiredRefProperties ref)).*1) as Hperm.
    rewrite Hkeys in Hperm. apply Permutation_nil_l in Hperm. symmetry in Hperm.
    apply fmap_nil_inv, map_to_list_empty_iff in Hperm. done.
  - exists k, rest. split; [done|].
    apply (range_keys orderOf orderOf_perm n). rewrite Hkeys. left.
Qed.

Lemma hitsInitial_false (initialRef : option Reference) (ref r : Reference) :
  ref_Definition r ≠ ref_Definition (initialOf ref initialRef) →
  hitsInitial initialRef r = false.
Proof.
  destruct initialRef as [initial|]; cbn; [|done].
  intros Hne. apply String.eqb_neq. congruence.
Qed.

(** X15: on a cycle of required properties that does not pass through
    the definition searched for, the recursion never ends.  If every
    required property of [ref] is found in a set [loops] of references,
    each of which has required properties, all of them found in [loops]
    again, and none of which has the definition of [initialRef] (of [ref]
    when [initialRef] is nil), then at every depth the call is still
    running, whatever order the ranges follow. *)
Theorem isInfiniteCircularDependency_never_returns (loops : Reference → Prop)
    (ref : Reference) (initialRef : option Reference) :
  (∀ r, loops r →
        ref_Definition r ≠ ref_Definition (initialOf ref initialRef)
        ∧ RequiredRefProperties r ≠ ∅
        ∧ ∀ k, is_Some (RequiredRefProperties r !! k) →
               ∃ r', search k = Some r' ∧ loops r') →
  RequiredRefProperties ref ≠ ∅ →
  (∀ k, is_Some (RequiredRefProperties ref !! k) →
        ∃ r, search k = Some r ∧ loops r) →
  ∀ fuel visited ranges,
    isInfiniteCircularDependency search orderOf fuel (Some ref) visited initialRef ranges
    = icdOutOfFuel.
Proof.
  intros Hloops Hne Hinto.
  assert (Hinner : ∀ fuel r v c,
            loops r →
            isInfiniteCircularDependency search orderOf fuel (Some r) v
              (Some (initialOf ref initialRef)) c = icdOutOfFuel).
  { induction fuel as [|fuel IH]; intros r v c Hr; [done|].
    cbn [isInfiniteCircularDependency].
    destruct (Hloops r Hr) as (_ & Hne' & Hnext).
    destruct (range_first c r Hne') as (k & rest & -> & Hk).
    destruct (Hnext k Hk) as (r' & Hfind & Hr').
    apply (icdLoop_diverges _ _ _ _ _ r'); [done| |].
    - apply (hitsInitial_false _ (initialOf ref initialRef)).
      by destruct (Hloops r' Hr') as [? _].
    - intros w c'. by apply IH. }
  intros [|fuel] v c; [done|]. cbn [isInfiniteCircularDependency].
  destruct (range_first c ref Hne) as (k & rest & -> & Hk).
  destruct (Hinto k Hk) as (r & Hfind & Hr).
  apply (icdLoop_diverges _ _ _ _ _ r); [done| |].
  - apply (hitsInitial_false _ ref). by destruct (Hloops r Hr) as [? _].
  - intros w c'. by apply Hinner.
Qed.

Lemma icdLoop_returns
    (recurse : option Reference → gmap string bool → option Reference → nat → IcdResult)
    (ref : Reference) (initialRef : option Reference) (keys : list string) :
  (∀ k, k ∈ keys →
        ∃ r, search k = Some r
             ∧ (hitsInitial initialRef r = true
                ∨ ∀ v c, ∃ b v' c',
                    recurse (Some r) v (Some (initialOf ref initialRef)) c
                    = icdReturn b v' c')) →
  ∀ v c, ∃ b v' c',
    icdLoop search recurse ref initialRef keys v c = icdReturn b v' c'.
Proof.
  induction keys as [|k rest IH]; intros Hkeys v c; cbn [icdLoop].
  - by eexists _, _, _.
  - destruct (Hkeys k) as (r & -> & Hr); [left|].
    fold (hitsInitial initialRef r). fold (initialOf ref initialRef).
    destruct (hitsInitial initialRef r) eqn:Hhit; [by eexists _, _, _|].
    destruct Hr as [?|Hrec]; [done|].
    destruct (Hrec (<[ref_Definition r:=true]> v) c) as ([] & v1 & c1 & ->).
    + by eexists _, _, _.
    + apply IH. intros k' Hk'. apply Hkeys. by right.
Qed.

Lemma isInfiniteCircularDependency_settles (n : nat) (ref initial : Reference) :
  settlesWithin search (ref_Definition initial) n ref →
  ∀ v c, ∃ b v' c',
    isInfiniteCircularDependency search orderOf (S n) (Some ref) v (Some initial) c
    = icdReturn b v' c'.
Proof.
  revert ref. induction n as [|n IH]; intros ref Hsettles v c;
    cbn [isInfiniteCircularDependency]; apply icdLoop_returns;
    intros k Hk%(range_keys orderOf orderOf_perm);
    destruct (Hsettles k Hk) as (r & Hfind & Hr); exists r; (split; [done|]);
    cbn [hitsInitial initialOf].
  - destruct Hr as [Hdef|[]]. left. apply String.eqb_eq. by symmetry.
  - destruct Hr as [Hdef|Hr]; [left; apply String.eqb_eq; by symmetry|].
    right. intros w c'. by apply IH.
Qed.

(** X16: the call made by [VisitReference], with a nil [initialRef],
    returns when every chain of required properties below [ref] ends or
    comes back to the definition of [ref] within [n] steps and every key
    on the way is found in the index: depth [n + 2] is enough. *)
Theorem isInfiniteCircularDependency_returns (n : nat) (ref : Reference)
    (visited : gmap string bool) (ranges : nat) :
  (∀ k, is_Some (RequiredRefProperties ref !! k) →
        ∃ r, search k = Some r ∧ settlesWithin search (ref_Definition ref) n r) →
  ∃ found visited' ranges',
    isInfiniteCircularDependency search orderOf (S (S n)) (Some ref) visited None ranges
    = icdReturn found visited' ranges'.
Proof.
  intros Hchildren. cbn [isInfiniteCircularDependency].
  apply icdLoop_returns.
  intros k Hk%(range_keys orderOf orderOf_perm).
  destruct (Hchildren k Hk) as (r & Hfind & Hr). exists r. split; [done|].
  right. intros w c'. cbn [initialOf].
  by apply isInfiniteCircularDependency_settles.
Qed.
End IcdTermination.

Section IcdWitnesses.

Lemma inListingOrder_perm (n : nat) (keys : list string) :
  Graph.inListingOrder n keys ≡ₚ keys.
Proof. reflexivity. Qed.

Lemma isInfiniteCircularDependency_returns_reachability_witness :
  ∃ r, requires Graph.search Graph.refM r
       ∧ reaches Graph.search (ref_Definition Graph.refM) r.
Proof.
  eapply (isInfiniteCircularDependency_returns_reachability
            Graph.search Graph.inListingOrder inListingOrder_perm
            3 Graph.refM None ∅ _ 0 _ true); [|reflexivity].
  vm_compute. reflexivity.
Defined.

Lemma required_of_schema (name d k : string) :
  is_Some (RequiredRefProperties (Graph.schema name [d]) !! k) →
  k = "#/components/schemas/" +:+ d.
Proof.
  unfold Graph.schema. cbn [RequiredRefProperties fmap list_fmap list_to_map foldr].
  intros [v Hv]. apply lookup_insert_Some in Hv as [[<- _]|[_ Hv]]; [done|].
  by rewrite lookup_empty in Hv.
Qed.

Lemma schema_requires (name d : string) :
  RequiredRefProperties (Graph.schema name [d]) ≠ ∅.
Proof.
  unfold Graph.schema. cbn [RequiredRefProperties fmap list_fmap list_to_map foldr].
  apply insert_non_empty.
Qed.

Lemma isInfiniteCircularDependency_never_returns_witness :
  isInfiniteCircularDependency Graph.search Graph.inListingOrder 1000
    (Some Graph.refA) ∅ None 0
  = icdOutOfFuel.
Proof.
  apply (isInfiniteCircularDependency_never_returns
           Graph.search Graph.inListingOrder inListingOrder_perm
           (λ r, r = Graph.refB ∨ r = Graph.refC) Graph.refA None).
  - intros r [->| ->]; (split_and!; [vm_compute; discriminate|apply schema_requires|]);
      intros k ->%required_of_schema; eexists; (split; [vm_compute; reflexivity|]);
      [by right|by left].
  - apply schema_requires.
  - intros k ->%required_of_schema. eexists. split; [vm_compute; reflexivity|].
    by left.
Defined.

Lemma isInfiniteCircularDependency_returns_witness :
  ∃ found visited' ranges',
    isInfiniteCircularDependency Graph.search Graph.inListingOrder 2
      (Some Graph.refP) ∅ None 0
    = icdReturn found visited' ranges'.
Proof.
  apply (isInfiniteCircularDependency_returns
           Graph.search Graph.inListingOrder inListingOrder_perm 0 Graph.refP).
  intros k ->%required_of_schema. exists Graph.refQ.
  split; [vm_compute; reflexivity|].
  intros k [v Hv]. unfold Graph.refQ, Graph.schema in Hv.
  cbn [RequiredRefProperties fmap list_fmap list_to_map foldr] in Hv.
  by rewrite lookup_empty in Hv.
Defined.
End IcdWitnesses.

(** ** The accessors of the resolver and the reporting loop *)

Lemma polymorphicLoop_filter (refs res : list CircularReferenceResult) :
  polymorphicLoop refs res
  = res ++ filter (λ c, IsInfiniteLoop c = true ∧ IsPolymorphicResult c = true) refs.
Proof.
  revert res. induction refs as [|c rest IH]; intros res; cbn [polymorphicLoop].
  - by rewrite app_nil_r.
  - rewrite filter_cons.
    destruct (IsInfiniteLoop c), (IsPolymorphicResult c); cbn [negb];
      rewrite IH; case_decide as Hc; try (by destruct Hc); try done;
      try (by rewrite <- app_assoc); try (destruct Hc; by split).
Qed.

Lemma nonPolymorphicLoop_filter (refs res : list CircularReferenceResult) :
  nonPolymorphicLoop refs res
  = res ++ filter (λ c, IsInfiniteLoop c = true ∧ IsPolymorphicResult c = false) refs.
Proof.
  revert res. induction refs as [|c rest IH]; intros res; cbn [nonPolymorphicLoop].
  - by rewrite app_nil_r.
  - rewrite filter_cons.
    destruct (IsInfiniteLoop c), (IsPolymorphicResult c); cbn [negb];
      rewrite IH; case_decide as Hc; try (by destruct Hc); try done;
      try (by rewrite <- app_assoc); try (destruct Hc; by split).
Qed.

(** X17: [GetPolymorphicCircularErrors] and
    [GetNonPolymorphicCircularErrors] split the infinite loops among the
    circular references between them: each returns, in the order of
    [GetCircularErrors], the infinite loops that are (resp. are not)
    polymorphic; a circular reference that is not an infinite loop is
    returned by neither, and none is returned by both. *)
Theorem circular_error_accessors_split (resolver : Resolver) :
  GetPolymorphicCircularErrors resolver
  = filter (λ c, IsInfiniteLoop c = true ∧ IsPolymorphicResult c = true)
           (GetCircularErrors resolver)
  ∧ GetNonPolymorphicCircularErrors resolver
    = filter (λ c, IsInfiniteLoop c = true ∧ IsPolymorphicResult c = false)
             (GetCircularErrors resolver)
  ∧ (length (GetPolymorphicCircularErrors resolver)
     + length (GetNonPolymorphicCircularErrors resolver)
     = length (filter (λ c, IsInfiniteLoop c = true) (GetCircularErrors resolver)))%nat
  ∧ (∀ c, c ∈ GetPolymorphicCircularErrors resolver →
          c ∉ GetNonPolymorphicCircularErrors resolver).
Proof.
  unfold GetPolymorphicCircularErrors, GetNonPolymorphicCircularErrors,
    GetCircularErrors.
  rewrite polymorphicLoop_filter, nonPolymorphicLoop_filter. cbn [app].
  split_and!; try done.
  - induction (circularReferences resolver) as [|c rest IH]; [done|].
    rewrite !filter_cons.
    destruct (IsInfiniteLoop c), (IsPolymorphicResult c);
      repeat case_decide; cbn [length]; try lia;
      repeat match goal with
             | H : _ ∧ _ |- _ => destruct H
             | H : ¬ (_ ∧ _) |- _ => destruct H; by split
             end; try done.
  - intros c [[_ Hpoly] _]%list_elem_of_filter [[_ Hnot] _]%list_elem_of_filter.
    congruence.
Qed.

Lemma write_appends (w : VisitWrite) (resolver : Resolver) :
  ∃ errs circs,
    resolvingErrors (write w resolver) = resolvingErrors resolver ++ errs
    ∧ circularReferences (write w resolver) = circularReferences resolver ++ circs.
Proof.
  destruct w; cbn [write count resolvingErrors circularReferences].
  1-4: exists [], []; by rewrite !app_nil_r.
  - eexists [_], []. cbn. by rewrite app_nil_r.
  - destruct (IgnoreArray resolver && _); [exists [], []|eexists [], [_]];
      cbn; by rewrite ?app_nil_r.
  - destruct (IgnorePoly resolver); [exists [], []|eexists [], [_]];
      cbn; by rewrite ?app_nil_r.
Qed.

Lemma visit_appends (writes : list VisitWrite) (resolver : Resolver) :
  ∃ errs circs,
    resolvingErrors (visit writes resolver) = resolvingErrors resolver ++ errs
    ∧ circularReferences (visit writes resolver) = circularReferences resolver ++ circs.
Proof.
  unfold visit. revert resolver.
  induction writes as [|w rest IH]; intros resolver; cbn [foldl].
  - exists [], []. by rewrite !app_nil_r.
  - destruct (IH (write w resolver)) as (errs & circs & -> & ->).
    destruct (write_appends w resolver) as (errs' & circs' & -> & ->).
    exists (errs' ++ errs), (circs' ++ circs). by rewrite !app_assoc.
Qed.

Lemma write_soundResults (w : VisitWrite) (resolver : Resolver) :
  soundResults resolver → soundResults (write w resolver).
Proof.
  intros (Hcircs & Hpoly & Harr & Herrs). unfold soundResults.
  destruct w; cbn [write]; try done.
  - cbn. split_and!; try done. apply Forall_app. split; [done|].
    constructor; [|done]. by intros c [=].
  - destruct (IgnoreArray resolver && _) eqn:Hflag; cbn; split_and!; try done.
    + apply Forall_app. split; [done|]. constructor; [|done].
      by apply andb_true_iff in Hflag as [_ ?].
    + apply Forall_app. split; [done|]. by constructor.
  - destruct (IgnorePoly resolver); cbn; split_and!; try done.
    + apply Forall_app. split; [done|]. by constructor.
    + apply Forall_app. split; [done|]. by constructor.
Qed.

Lemma write_polyKeptOut (w : VisitWrite) (resolver : Resolver) :
  polyKeptOut resolver → polyKeptOut (write w resolver).
Proof.
  intros [Hflag Hcircs]. unfold polyKeptOut.
  destruct w; cbn [write]; try done.
  - destruct (IgnoreArray resolver && _); cbn; split; try done.
    apply Forall_app. split; [done|]. by constructor.
  - by rewrite Hflag.
Qed.

Lemma write_arraysKeptOut (w : VisitWrite) (resolver : Resolver) :
  arraysKeptOut resolver → arraysKeptOut (write w resolver).
Proof.
  intros [Hflag Hcircs]. unfold arraysKeptOut.
  destruct w; cbn [write]; try done.
  - rewrite Hflag. cbn [andb journeyLoop IsArrayResult].
    destruct (String.eqb _ _) eqn:Harr; cbn; split; try done.
    apply Forall_app. split; [done|]. constructor; [|done]. by cbn.
  - destruct (IgnorePoly resolver); cbn; split; try done.
    apply Forall_app. split; [done|]. by constructor.
Qed.

Lemma visit_preserves (P : Resolver → Prop) (writes : list VisitWrite)
    (resolver : Resolver) :
  (∀ w res, P res → P (write w res)) →
  P resolver → P (visit writes resolver).
Proof.
  intros Hstep. unfold visit. revert resolver.
  induction writes as [|w rest IH]; intros resolver HP; cbn [foldl]; [done|].
  by apply IH, Hstep.
Qed.

Section ReportFacts.
Context (journeyPath : CircularReferenceResult → string).
Context (nodeOf : Reference → N).

Lemma reportLoops_filter (linked : bool) (refs : list CircularReferenceResult)
    (errs : list ResolvingError) :
  reportLoops journeyPath nodeOf linked refs errs
  = errs ++ (infiniteLoopError journeyPath nodeOf linked
             <$> filter (λ c, IsInfiniteLoop c = true) refs).
Proof.
  revert errs. induction refs as [|c rest IH]; intros errs; cbn [reportLoops].
  - by rewrite app_nil_r.
  - rewrite filter_cons. destruct (IsInfiniteLoop c); cbn [negb]; rewrite IH;
      case_decide; try done. by rewrite fmap_cons, <- app_assoc.
Qed.

Lemma reportAfterVisit_errors (linked : bool) (resolver : Resolver) :
  resolvingErrors (reportAfterVisit journeyPath nodeOf linked resolver)
  = resolvingErrors resolver
    ++ (infiniteLoopError journeyPath nodeOf linked
        <$> filter (λ c, IsInfiniteLoop c = true) (circularReferences resolver)).
Proof. apply reportLoops_filter. Qed.

Lemma reportAfterVisit_circs (linked : bool) (resolver : Resolver) :
  circularReferences (reportAfterVisit journeyPath nodeOf linked resolver)
  = circularReferences resolver.
Proof. reflexivity. Qed.

Lemma reportAfterVisit_soundResults (linked : bool) (resolver : Resolver) :
  soundResults resolver →
  soundResults (reportAfterVisit journeyPath nodeOf linked resolver).
Proof.
  intros (Hcircs & Hpoly & Harr & Herrs). unfold soundResults, reportAfterVisit.
  cbn [resolvingErrors circularReferences ignoredPolyReferences ignoredArrayReferences].
  split_and!; try done. rewrite reportLoops_filter.
  apply Forall_app. split; [done|]. apply Forall_fmap.
  induction Hcircs as [|c rest Hc Hrest IH]; [done|].
  rewrite filter_cons. case_decide as Hinf; [|done].
  constructor; [|done]. unfold compose. cbn.
  destruct linked; [|done]. intros c' [= <-]. split; [done|by apply Hc].
Qed.

Lemma call_soundResults (c : ResolverCall) (resolver : Resolver) :
  soundResults resolver → soundResults (call journeyPath nodeOf c resolver).
Proof.
  intros Hsound.
  destruct c as [| |writes|writes]; cbn [call Resolve CheckForCircularReferences snd].
  - exact Hsound.
  - exact Hsound.
  - apply reportAfterVisit_soundResults, visit_preserves;
      auto using write_soundResults.
  - apply reportAfterVisit_soundResults, visit_preserves;
      auto using write_soundResults.
Qed.

Lemma calls_preserve (P : Resolver → Prop) (cs : list ResolverCall)
    (resolver : Resolver) :
  (∀ c res, P res → P (call journeyPath nodeOf c res)) →
  P resolver → P (calls journeyPath nodeOf cs resolver).
Proof.
  intros Hstep. unfold calls. revert resolver.
  induction cs as [|c rest IH]; intros resolver HP; cbn [foldl]; [done|].
  by apply IH, Hstep.
Qed.

Lemma call_polyKeptOut (c : ResolverCall) (resolver : Resolver) :
  polyKeptOut resolver → polyKeptOut (call journeyPath nodeOf c resolver).
Proof.
  intros Hkept.
  destruct c as [| |writes|writes]; cbn [call Resolve CheckForCircularReferences snd].
  - destruct Hkept. by split.
  - destruct Hkept. by split.
  - change (polyKeptOut (visit writes resolver)).
    apply visit_preserves; auto using write_polyKeptOut.
  - change (polyKeptOut (visit writes resolver)).
    apply visit_preserves; auto using write_polyKeptOut.
Qed.

Lemma call_arraysKeptOut (c : ResolverCall) (resolver : Resolver) :
  arraysKeptOut resolver → arraysKeptOut (call journeyPath nodeOf c resolver).
Proof.
  intros Hkept.
  destruct c as [| |writes|writes]; cbn [call Resolve CheckForCircularReferences snd].
  - destruct Hkept. by split.
  - destruct Hkept. by split.
  - change (arraysKeptOut (visit writes resolver)).
    apply visit_preserves; auto using write_arraysKeptOut.
  - change (arraysKeptOut (visit writes resolver)).
    apply visit_preserves; auto using write_arraysKeptOut.
Qed.

(** X18: [Resolve] returns the errors recorded up to the end of its visit
    followed by one error for each circular reference that is an infinite
    loop, in the order of [GetCircularErrors], and none for the loops
    that are not infinite; it is the slice that [GetResolvingErrors]
    returns afterwards.  [CheckForCircularReferences] does the same and
    links each of these errors to its circular reference, which
    [Resolve] does not. *)
Theorem Resolve_reports_each_infinite_loop (writes : list VisitWrite)
    (resolver : Resolver) :
  let visited := visit writes resolver in
  let loops := filter (λ c, IsInfiniteLoop c = true) (GetCircularErrors visited) in
  let resolved := Resolve journeyPath nodeOf writes resolver in
  let checked := CheckForCircularReferences journeyPath nodeOf writes resolver in
  resolved.1 = GetResolvingErrors visited
               ++ (infiniteLoopError journeyPath nodeOf false <$> loops)
  ∧ checked.1 = GetResolvingErrors visited
                ++ (infiniteLoopError journeyPath nodeOf true <$> loops)
  ∧ GetResolvingErrors resolved.2 = resolved.1
  ∧ GetResolvingErrors checked.2 = checked.1
  ∧ GetCircularErrors resolved.2 = GetCircularErrors visited
  ∧ GetCircularErrors checked.2 = GetCircularErrors visited
  ∧ Forall (λ e, CircularReference e = None)
           (infiniteLoopError journeyPath nodeOf false <$> loops)
  ∧ Forall2 (λ e c, CircularReference e = Some c)
            (infiniteLoopError journeyPath nodeOf true <$> loops) loops.
Proof.
  cbn zeta. unfold Resolve, CheckForCircularReferences, GetResolvingErrors,
    GetCircularErrors, reportAfterVisit.
  cbn [fst snd resolvingErrors circularReferences].
  rewrite !reportLoops_filter. split_and!; try done.
  - apply Forall_fmap, Forall_true. by intros c.
  - apply Forall2_fmap_l, Forall2_same_length_lookup_2; [done|].
    by intros i c c' -> [= ->].
Qed.

(** X22: the results of one run stay recorded for the next.  When
    [Resolve] is called after [CheckForCircularReferences], it returns
    everything the check returned, then what its own visit records, then
    one more error for every infinite loop the check had already reported,
    then the errors for the infinite loops among the circular references
    found by its own visit. *)
Theorem Resolve_after_check_reports_again (writes1 writes2 : list VisitWrite)
    (resolver : Resolver) :
  let checked := CheckForCircularReferences journeyPath nodeOf writes1 resolver in
  let resolved := Resolve journeyPath nodeOf writes2 checked.2 in
  let loops := filter (λ c, IsInfiniteLoop c = true) (GetCircularErrors checked.2) in
  ∃ before errs2 circs2,
    checked.1 = before ++ (infiniteLoopError journeyPath nodeOf true <$> loops)
    ∧ GetResolvingErrors (visit writes2 checked.2) = checked.1 ++ errs2
    ∧ GetCircularErrors resolved.2 = GetCircularErrors checked.2 ++ circs2
    ∧ resolved.1
      = checked.1 ++ errs2
        ++ (infiniteLoopError journeyPath nodeOf false <$> loops)
        ++ (infiniteLoopError journeyPath nodeOf false
            <$> filter (λ c, IsInfiniteLoop c = true) circs2).
Proof.
  cbn zeta. unfold Resolve, CheckForCircularReferences, GetResolvingErrors,
    GetCircularErrors. cbn [fst snd].
  set (checked := reportAfterVisit journeyPath nodeOf true (visit writes1 resolver)).
  destruct (visit_appends writes2 checked) as (errs2 & circs2 & Herrs & Hcircs).
  exists (resolvingErrors (visit writes1 resolver)), errs2, circs2.
  rewrite reportAfterVisit_errors, reportAfterVisit_circs, Herrs, Hcircs.
  split_and!; try done.
  - unfold checked. by rewrite reportAfterVisit_errors, reportAfterVisit_circs.
  - by rewrite filter_app, fmap_app, <- !app_assoc.
Qed.

(** X23: on a resolver made by [NewResolver], whatever is called on it
    and whatever the visits find, [GetPolymorphicCircularErrors] returns
    nothing: a polymorphic circular reference is never recorded as an
    infinite loop.  So [GetNonPolymorphicCircularErrors] returns all the
    infinite loops of [GetCircularErrors], an error that is linked to a
    circular reference is linked to an infinite loop that is not
    polymorphic, and what the two lists of ignored references hold is
    polymorphic, resp. stems from an array. *)
Theorem GetPolymorphicCircularErrors_is_empty {Index : Type} (index : Index)
    (cs : list ResolverCall) (fresh : Resolver) :
  NewResolver (Some index) = Some fresh →
  let resolver := calls journeyPath nodeOf cs fresh in
  GetPolymorphicCircularErrors resolver = []
  ∧ GetNonPolymorphicCircularErrors resolver
    = filter (λ c, IsInfiniteLoop c = true) (GetCircularErrors resolver)
  ∧ Forall (λ e, ∀ c, CircularReference e = Some c →
                      IsInfiniteLoop c = true ∧ IsPolymorphicResult c = false)
           (GetResolvingErrors resolver)
  ∧ Forall (λ c, IsPolymorphicResult c = true)
           (GetIgnoredCircularPolyReferences resolver)
  ∧ Forall (λ c, IsArrayResult c = true)
           (GetIgnoredCircularArrayReferences resolver).
Proof.
  intros [= <-]. cbn zeta.
  assert (Hsound : soundResults
            (calls journeyPath nodeOf cs
               {| resolvingErrors := []; circularReferences := [];
                  ignoredPolyReferences := []; ignoredArrayReferences := [];
                  referencesVisited := 0; indexesVisited := 0;
                  journeysTaken := 0; relativesSeen := 0;
                  IgnorePoly := false; IgnoreArray := false |})).
  { apply calls_preserve; [apply call_soundResults|].
    unfold soundResults. cbn. by split_and!. }
  destruct Hsound as (Hcircs & Hpoly & Harr & Herrs).
  unfold GetPolymorphicCircularErrors, GetNonPolymorphicCircularErrors,
    GetCircularErrors, GetResolvingErrors, GetIgnoredCircularPolyReferences,
    GetIgnoredCircularArrayReferences.
  rewrite polymorphicLoop_filter, nonPolymorphicLoop_filter. cbn [app].
  split_and!; try done.
  - induction Hcircs as [|c rest Hc Hrest IH]; [done|].
    rewrite filter_cons, IH. case_decide as Hboth; [|done].
    destruct Hboth as [Hinf Hp]. rewrite (Hc Hinf) in Hp. discriminate Hp.
  - induction Hcircs as [|c rest Hc Hrest IH]; [done|].
    rewrite !filter_cons, IH.
    destruct (decide (IsInfiniteLoop c = true ∧ IsPolymorphicResult c = false))
      as [[Hinf Hp]|Hno];
      destruct (decide (IsInfiniteLoop c = true)) as [Hinf'|Hno']; try done.
    destruct Hno. split; [done|by apply Hc].
Qed.

(** X24: when [IgnorePolymorphicCircularReferences] is called on a
    resolver made by [NewResolver] before anything else, no polymorphic
    circular reference is ever recorded in [GetCircularErrors]; when
    [IgnoreArrayCircularReferences] is, none that stems from an array. *)
Theorem Ignore_before_resolving_keeps_out {Index : Type} (index : Index)
    (cs : list ResolverCall) (fresh : Resolver) :
  NewResolver (Some index) = Some fresh →
  Forall (λ c, IsPolymorphicResult c = false)
         (GetCircularErrors
            (calls journeyPath nodeOf cs (IgnorePolymorphicCircularReferences fresh)))
  ∧ Forall (λ c, IsArrayResult c = false)
           (GetCircularErrors
              (calls journeyPath nodeOf cs (IgnoreArrayCircularReferences fresh))).
Proof.
  intros [= <-]. split.
  - eapply proj2. apply (calls_preserve polyKeptOut); [apply call_polyKeptOut|].
    by split.
  - eapply proj2. apply (calls_preserve arraysKeptOut); [apply call_arraysKeptOut|].
    by split.
Qed.
End ReportFacts.

Section ReportWitnesses.

Lemma GetPolymorphicCircularErrors_is_empty_witness :
  match NewResolver (Some tt) with
  | Some fresh =>
    GetPolymorphicCircularErrors
      (calls (λ _, "a -> a") (λ _, 0%N)
             [callCheck [loopOnPolymorph [Graph.refA] Graph.refA 0 "oneOf";
                         loopOnJourney [Graph.refA] Graph.refA Graph.refA 0 true]]
             fresh) = []
  | None => False
  end.
Proof.
  destruct (NewResolver (Some tt)) as [fresh|] eqn:Hnew.
  - apply (GetPolymorphicCircularErrors_is_empty _ _ tt _ fresh Hnew).
  - discriminate Hnew.
Defined.

Lemma Ignore_before_resolving_keeps_out_witness :
  match NewResolver (Some tt) with
  | Some fresh =>
    Forall (λ c, IsPolymorphicResult c = false)
      (GetCircularErrors
         (calls (λ _, "a -> a") (λ _, 0%N)
                [callResolve [loopOnPolymorph [Graph.refA] Graph.refA 0 "oneOf"]]
                (IgnorePolymorphicCircularReferences fresh)))
  | None => False
  end.
Proof.
  destruct (NewResolver (Some tt)) as [fresh|] eqn:Hnew.
  - apply (Ignore_before_resolving_keeps_out _ _ tt _ fresh Hnew).
  - discriminate Hnew.
Defined.
End ReportWitnesses.

(** ** [FindMappingValue] when the keys agree *)

(** X19: when every entry of the mapping whose key has the value [key]
    carries the same mapping value, and there is such an entry,
    [FindMappingValue] returns that value whatever the order of the
    range. *)
Theorem FindMappingValue_agreeing_entries (d : Discriminator)
    (order : list (KeyReference * ValueReference)) (key : string)
    (v : ValueReference) :
  rangeOrder (Mapping d) order →
  (∃ k, Mapping d !! k = Some v ∧ kr_Value k = key) →
  (∀ k' v', Mapping d !! k' = Some v' → kr_Value k' = key → v' = v) →
  FindMappingValue d order key = Some v.
Proof.
  intros Horder (k & Hk & Hkey) Hagree. unfold FindMappingValue.
  destruct (findMapping order key) as [w|] eqn:Hfind.
  - apply findMapping_Some in Hfind as (k' & Hin & Hkey').
    apply (rangeOrder_elem _ _ _ _ Horder) in Hin.
    by rewrite (Hagree k' w Hin Hkey').
  - rewrite findMapping_None in Hfind. destruct (Hfind k v); [|done].
    by apply (rangeOrder_elem _ _ _ _ Horder).
Qed.

Lemma FindMappingValue_agreeing_entries_witness :
  FindMappingValue Sample.petDiscriminator
    (map_to_list (Mapping Sample.petDiscriminator)) "cat"
  = Some Sample.catValue.
Proof.
  apply FindMappingValue_agreeing_entries.
  - apply rangeOrder_refl.
  - exists Sample.catKey. split; [vm_compute|]; reflexivity.
  - intros k' v' Hk' Hkey. unfold Sample.petDiscriminator in Hk'. cbn [Mapping] in Hk'.
    apply lookup_insert_Some in Hk' as [[<- <-]|[_ Hk']]; [done|].
    apply lookup_insert_Some in Hk' as [[<- <-]|[_ Hk']]; [done|].
    by rewrite lookup_empty in Hk'.
Defined.


(** ** The converter's version check *)

Lemma pattern_not_after_start (version : string) (start count : nat) :
  existsb (λ offset,
             match matchesAt pattern offset (textFrom offset version) with
             | [] => false
             | _ :: _ => true
             end) (seq (S start) count) = false.
Proof.
  revert start. induction count as [|n IH]; intros start; [reflexivity|].
  cbn [seq existsb]. rewrite IH. reflexivity.
Qed.

Lemma reLit_cat (c : ascii) (r : Regexp) (pos : nat) (text : string) :
  matchesAt (reCat (reLit c) r) pos text
  = match text with
    | String c' rest => if Ascii.eqb c c' then matchesAt r (S pos) rest else []
    | EmptyString => []
    end.
Proof.
  cbn [matchesAt]. destruct text as [|c' rest]; [reflexivity|].
  destruct (Ascii.eqb c c'); cbn [flat_map fst snd]; [apply app_nil_r|reflexivity].
Qed.

Lemma rePlus_digit (pos : nat) (text : string) :
  matchesAt (rePlus reDigit) pos text ≠ []
  ↔ ∃ d rest, text = String d rest ∧ isDigit d = true.
Proof.
  destruct text as [|d rest].
  - cbn. split; [congruence|]. intros (d & rest & Heq & _). discriminate Heq.
  - cbn [matchesAt String.length]. destruct (isDigit d) eqn:Hd.
    + split; [intros _; exists d, rest; split; reflexivity || assumption|].
      intros _. discriminate.
    + split; [intros H; exfalso; apply H; reflexivity|].
      intros (d' & rest' & Heq & Hd'). injection Heq as -> ->. congruence.
Qed.

Lemma pattern_at_start (text : string) :
  matchesAt pattern 0 text ≠ []
  ↔ ∃ d rest, text = String "3" (String "." (String "0" (String "." (String d rest))))
              ∧ isDigit d = true.
Proof.
  unfold pattern.
  change (matchesAt (reCat reBeginText ?r) 0 text) with (matchesAt r 0 text ++ []).
  rewrite app_nil_r.
  split.
  - rewrite reLit_cat. destruct text as [|c1 t1]; [congruence|].
    destruct (Ascii.eqb_spec "3" c1) as [<-|_]; [|congruence].
    rewrite reLit_cat. destruct t1 as [|c2 t2]; [congruence|].
    destruct (Ascii.eqb_spec "." c2) as [<-|_]; [|congruence].
    rewrite reLit_cat. destruct t2 as [|c3 t3]; [congruence|].
    destruct (Ascii.eqb_spec "0" c3) as [<-|_]; [|congruence].
    rewrite reLit_cat. destruct t3 as [|c4 t4]; [congruence|].
    destruct (Ascii.eqb_spec "." c4) as [<-|_]; [|congruence].
    rewrite rePlus_digit. intros (d & rest & -> & Hd). exists d, rest.
    split; [reflexivity|assumption].
  - intros (d & rest & -> & Hd).
    rewrite !reLit_cat, !Ascii.eqb_refl. apply rePlus_digit.
    exists d, rest. split; [reflexivity|assumption].
Qed.

Lemma isOpenAPI30x_at_start (version : string) :
  isOpenAPI30x version = true ↔ matchesAt pattern 0 version ≠ [].
Proof.
  unfold isOpenAPI30x, MatchString. cbn [seq existsb].
  rewrite pattern_not_after_start, orb_false_r.
  replace (textFrom 0 version) with version by (destruct version; reflexivity).
  destruct (matchesAt pattern 0 version); split; congruence.
Qed.

(** X20: [isOpenAPI30x] accepts exactly the version strings that begin
    with [3.0.] followed by an ASCII digit; what comes after that digit
    is not looked at, so an accepted version stays accepted whatever is
    appended to it. *)
Theorem isOpenAPI30x_accepts_by_prefix (version : string) :
  (isOpenAPI30x version = true
   ↔ ∃ d rest, version = "3.0." +:+ String d rest ∧ isDigit d = true)
  ∧ (∀ tail, isOpenAPI30x version = true →
             isOpenAPI30x (version +:+ tail) = true).
Proof.
  split.
  - rewrite isOpenAPI30x_at_start. apply pattern_at_start.
  - intros tail. rewrite !isOpenAPI30x_at_start, !pattern_at_start.
    intros (d & rest & -> & Hd). exists d, (rest +:+ tail).
    split; [reflexivity|assumption].
Qed.
